(** * Clustered QAP instance generator: [scripts/generate_meta_instance.py]

    A shallow embedding of the generator script and the properties of its
    output.  The script is a Python program that talks to three things
    outside itself: the process-wide generator of the [random] module, the
    file system, and standard output.  Programs are therefore written as
    trees of requests to that environment ([prog]), and run against a world
    that holds the generator state, the file system and the console. *)

From Stdlib Require Import ZArith QArith String Ascii List Lia.
From Stdlib Require Import DecimalString DecimalZ.
From stdpp Require Import base tactics option list strings gmap.

Local Open Scope Z_scope.

(** ** Python exceptions the script could meet *)

Inductive exn : Type :=
| ZeroDivisionError
| IndexError
| ValueError
| OSError.

(** What a path leads to when it is opened for writing: a regular file,
    known by its identity (two paths can lead to the same file), or the
    stream behind standard output (as [/dev/stdout] does). *)
Inductive target : Type :=
| Regular (file : string)
| Stdout.

(** ** Programs over the script's environment

    [Seed], [RandInt] and [RandomF] are the calls [random.seed],
    [random.randint] and [random.random]; [OpenW], [Write] and [Print] are
    [open(path, 'w')], which answers with the file object, [fh.write] on
    such an object, and [print]. *)

Inductive prog (A : Type) : Type :=
| Ret (a : A)
| Raise (e : exn)
| Seed (s : Z) (k : prog A)
| RandInt (lo hi : Z) (k : Z -> prog A)
| RandomF (k : Q -> prog A)
| OpenW (path : string) (k : target -> prog A)
| Write (fh : target) (s : string) (k : prog A)
| Print (s : string) (k : prog A).

Arguments Ret {A} a.
Arguments Raise {A} e.
Arguments Seed {A} s k.
Arguments RandInt {A} lo hi k.
Arguments RandomF {A} k.
Arguments OpenW {A} path k.
Arguments Write {A} fh s k.
Arguments Print {A} s k.

Fixpoint bind {A B : Type} (p : prog A) (f : A -> prog B) : prog B :=
  match p with
  | Ret a => f a
  | Raise e => Raise e
  | Seed s k => Seed s (bind k f)
  | RandInt lo hi k => RandInt lo hi (fun v => bind (k v) f)
  | RandomF k => RandomF (fun q => bind (k q) f)
  | OpenW path k => OpenW path (fun fh => bind (k fh) f)
  | Write fh s k => Write fh s (bind k f)
  | Print s k => Print s (bind k f)
  end.

#[global] Instance prog_ret : MRet prog := @Ret.
#[global] Instance prog_bind : MBind prog := fun A B f p => bind p f.

Definition seed (s : Z) : prog unit := Seed s (Ret tt).
Definition randint (lo hi : Z) : prog Z := RandInt lo hi Ret.
Definition random : prog Q := RandomF Ret.
Definition open_w (path : string) : prog target := OpenW path Ret.
Definition write (fh : target) (s : string) : prog unit := Write fh s (Ret tt).
Definition print (s : string) : prog unit := Print s (Ret tt).

(** [for x in xs: s = body x s], the loop state threaded through. *)
Fixpoint for_ {I S : Type} (xs : list I) (body : I -> S -> prog S) (s : S)
  : prog S :=
  match xs with
  | [] => Ret s
  | x :: xs' => s' ← body x s; for_ xs' body s'
  end.

(** [[f x for x in xs]] *)
Fixpoint comprehension {I B : Type} (f : I -> prog B) (xs : list I)
  : prog (list B) :=
  match xs with
  | [] => Ret []
  | x :: xs' => y ← f x; ys ← comprehension f xs'; Ret (y :: ys)
  end.

(** ** Python built-ins used by the script *)

(** [range(n)]: empty when [n <= 0]. *)
Definition range (n : Z) : list nat := seq 0 (Z.to_nat n).

(** [a // b]: floor division, [ZeroDivisionError] on a zero divisor. *)
Definition floordiv (a b : Z) : prog Z :=
  if b =? 0 then Raise ZeroDivisionError else Ret (a / b).

(** [l[i]] for an index that is never negative. *)
Definition getitem {A : Type} (l : list A) (i : nat) : prog A :=
  match l !! i with
  | Some x => Ret x
  | None => Raise IndexError
  end.

Abbreviation matrix := (list (list Z)).

(** [M[i][j] = v] *)
Definition setitem2 (M : matrix) (i j : nat) (v : Z) : prog matrix :=
  row ← getitem M i;
  if (j <? length row)%nat then Ret (<[i := <[j := v]> row]> M)
  else Raise IndexError.

(** [[[0]*n for _ in range(n)]]: [n] fresh rows of [n] zeros. *)
Definition zeros (n : Z) : matrix :=
  (fun _ => replicate (Z.to_nat n) 0) <$> range n.

(** The literal [0.05] is the double nearest to 1/20; the value of
    [random.random()] is a double in [0,1).  Both are dyadic rationals and
    [<] on doubles is exact, so the comparison is modelled in [Q]. *)
Definition float_0_05 : Q := 3602879701896397 # 72057594037927936.

Definition Qltb (x y : Q) : bool := negb (Qle_bool y x).

(** ** [generate] *)

(** Line 13: [cluster_of = [i * clusters // n for i in range(n)]] *)
Definition cluster_of (n clusters : Z) : prog (list Z) :=
  comprehension (fun i : nat => floordiv (Z.of_nat i * clusters) n) (range n).

(** Lines 19-28: the body of the distance loops. *)
Definition distance_cell (cl : list Z) (i j : nat) (D : matrix) : prog matrix :=
  if (i =? j)%nat then setitem2 D i j 0
  else
    ci ← getitem cl i;
    cj ← getitem cl j;
    if ci =? cj then
      r ← randint 0 9;
      setitem2 D i j (1 + r)
    else
      ci' ← getitem cl i;
      cj' ← getitem cl j;
      let cd := Z.abs (ci' - cj') in
      r ← randint 0 19;
      setitem2 D i j (30 + cd * 10 + r).

(** Lines 33-45: the body of the flow loops. *)
Definition flow_cell (cl : list Z) (i j : nat) (F : matrix) : prog matrix :=
  if (i =? j)%nat then setitem2 F i j 0
  else
    ci ← getitem cl i;
    cj ← getitem cl j;
    if ci =? cj then
      r ← randint 80 200;
      setitem2 F i j r
    else
      p ← random;
      if Qltb p float_0_05 then
        r ← randint 120 220;
        setitem2 F i j r
      else
        r ← randint 5 80;
        setitem2 F i j r.

(** Lines 10-46. *)
Definition generate (n clusters sd : Z) : prog (matrix * matrix) :=
  seed sd;;
  cl ← cluster_of n clusters;
  D ← for_ (range n) (fun i D =>
         for_ (range n) (fun j D => distance_cell cl i j D) D) (zeros n);
  F ← for_ (range n) (fun i F =>
         for_ (range n) (fun j F => flow_cell cl i j F) F) (zeros n);
  Ret (D, F).

(** ** The script's entry point *)

(** [str(x)] for an [int]. *)
Definition str (x : Z) : string := NilZero.string_of_int (Z.to_int x).

Definition newline : string := String (ascii_of_nat 10) EmptyString.

(** [sep.join(parts)] *)
Fixpoint join (sep : string) (parts : list string) : string :=
  match parts with
  | [] => EmptyString
  | [p] => p
  | p :: ps => (p ++ sep ++ join sep ps)%string
  end.

(** [' '.join(str(x) for x in row) + '\n'] *)
Definition row_line (row : list Z) : string :=
  (join " " (str <$> row) ++ newline)%string.

(** Lines 60-61 and 62-63: [for i in range(n): fh.write(... M[i] ...)]. *)
Definition write_rows (fh : target) (n : Z) (M : matrix) : prog unit :=
  for_ (range n) (fun i _ => row ← getitem M i; write fh (row_line row)) tt.

(** Lines 56-65, after argument parsing. *)
Definition main (n clusters sd : Z) (out : string) : prog unit :=
  '(D, F) ← generate n clusters sd;
  fh ← open_w out;
  write fh (str n ++ newline)%string;;
  write_rows fh n D;;
  write_rows fh n F;;
  print (join " " ["Wrote"; out; "n="; str n; "clusters="; str clusters;
                   "seed="; str sd] ++ newline)%string.

(** ** The environment

    A generator behind the [random] module: a state, and what seeding and
    the two kinds of draw do to it.  Seeding replaces the state by one that
    depends on the seed alone.  [lawful] is what the script relies on from
    the draws, whatever the algorithm: [randint(lo, hi)] with [lo <= hi]
    answers within [lo..hi], and [random()] answers in [0,1). *)

Record Random : Type := {
  rng : Type;
  rng_seed : Z -> rng;
  rng_randint : Z -> Z -> rng -> Z * rng;
  rng_random : rng -> Q * rng
}.

Record lawful (R : Random) : Prop := {
  rng_randint_range : forall lo hi g,
    lo <= hi -> lo <= fst (rng_randint R lo hi g) <= hi;
  rng_random_range : forall g,
    (0 <= fst (rng_random R g))%Q /\ (fst (rng_random R g) < 1)%Q
}.

(** One answer of the generator, as seen by the program. *)
Inductive draw : Type :=
| DrawInt (lo hi v : Z)
| DrawFloat (q : Q).

(** The file system: the content of every regular file, by identity, and
    what [open(path, 'w')] would do with each path, [None] when it raises
    [OSError] (a missing directory, no permission, a directory in the
    place of the file). *)
Record filesystem : Type := Filesystem {
  fs_files : gmap string string;
  fs_open : string -> option target
}.

(** No file, and no path that can be opened. *)
#[global] Instance filesystem_empty : Empty filesystem :=
  Filesystem ∅ (fun _ => None).

(** Opening a regular file for writing creates it or empties it. *)
Definition fs_truncate (file : string) (fs : filesystem) : filesystem :=
  Filesystem (<[file := EmptyString]> (fs_files fs)) (fs_open fs).

(** A write on a regular file adds to its end. *)
Definition fs_append (file s : string) (fs : filesystem) : filesystem :=
  Filesystem
    (<[file := (default EmptyString (fs_files fs !! file) ++ s)%string]>
       (fs_files fs))
    (fs_open fs).

Record world (R : Random) : Type := World {
  w_rng : rng R;
  w_fs : filesystem;
  w_stdout : string
}.
Arguments World {R} _ _ _.
Arguments w_rng {R} _.
Arguments w_fs {R} _.
Arguments w_stdout {R} _.

(** The outcome of a run: the value or the exception, the world left
    behind, and the generator draws made on the way, oldest first. *)
Record outcome (R : Random) (A : Type) : Type := Outcome {
  result : exn + A;
  final : world R;
  draws : list draw
}.
Arguments Outcome {R A} _ _ _.
Arguments result {R A} _.
Arguments final {R A} _.
Arguments draws {R A} _.

Definition logged {R A} (d : draw) (o : outcome R A) : outcome R A :=
  Outcome (result o) (final o) (d :: draws o).

(** Running a program.  [randint(lo, hi)] with [hi < lo] raises
    [ValueError] as in Python.  [open(path, 'w')] raises [OSError] when
    the file system refuses the path; otherwise it answers with what the
    path leads to, emptied if that is a regular file.  What is written to
    a regular file is added to its end (storage is taken to be
    unbounded); what is written to the stream behind standard output
    comes out there, as what is printed does. *)

Fixpoint run (R : Random) {A : Type} (p : prog A) (w : world R)
  : outcome R A :=
  match p with
  | Ret a => Outcome (inr a) w []
  | Raise e => Outcome (inl e) w []
  | Seed s k => run R k (World (rng_seed R s) (w_fs w) (w_stdout w))
  | RandInt lo hi k =>
      if hi <? lo then Outcome (inl ValueError) w []
      else
        let '(v, g) := rng_randint R lo hi (w_rng w) in
        logged (DrawInt lo hi v)
               (run R (k v) (World g (w_fs w) (w_stdout w)))
  | RandomF k =>
      let '(q, g) := rng_random R (w_rng w) in
      logged (DrawFloat q) (run R (k q) (World g (w_fs w) (w_stdout w)))
  | OpenW path k =>
      match fs_open (w_fs w) path with
      | None => Outcome (inl OSError) w []
      | Some (Regular file) =>
          run R (k (Regular file))
              (World (w_rng w) (fs_truncate file (w_fs w)) (w_stdout w))
      | Some Stdout => run R (k Stdout) w
      end
  | Write fh s k =>
      match fh with
      | Regular file =>
          run R k (World (w_rng w) (fs_append file s (w_fs w)) (w_stdout w))
      | Stdout => run R k (World (w_rng w) (w_fs w) (w_stdout w ++ s)%string)
      end
  | Print s k =>
      run R k (World (w_rng w) (w_fs w) (w_stdout w ++ s)%string)
  end.

(** ** CPython's generator

    The Mersenne Twister MT19937 as [Modules/_randommodule.c] and
    [Lib/random.py] of CPython 3 implement it.  It is not part of the
    script; it is the generator the script meets when it runs, and the
    concrete scenarios below are evaluated on it. *)

Module Mt19937.

Definition N : nat := 624.
Definition M : nat := 397.

(** Arithmetic on [uint32_t]. *)
Definition uint32 (x : Z) : Z := x mod 2 ^ 32.

Record state : Type := State { mt : list Z; mti : nat }.

Definition word (v : list Z) (i : nat) : Z := nth i v 0.

(** [init_genrand]: [mt[i] = 1812433253 * (mt[i-1] ^ (mt[i-1] >> 30)) + i]. *)
Fixpoint init_genrand_from (prev : Z) (i count : nat) : list Z :=
  match count with
  | O => []
  | S count' =>
      let x := uint32 (1812433253 * Z.lxor prev (Z.shiftr prev 30) + Z.of_nat i) in
      x :: init_genrand_from x (S i) count'
  end.

Definition init_genrand (s : Z) : list Z :=
  uint32 s :: init_genrand_from (uint32 s) 1 (N - 1).

(** The first loop of [init_by_array]. *)
Fixpoint mix_key (k : nat) (key v : list Z) (i j : nat) : list Z * nat :=
  match k with
  | O => (v, i)
  | S k' =>
      let prev := word v (i - 1) in
      let x := uint32 (Z.lxor (word v i)
                              (uint32 (Z.lxor prev (Z.shiftr prev 30) * 1664525))
                       + word key j + Z.of_nat j) in
      let v1 := <[i := x]> v in
      let '(v2, i') := if (N <=? S i)%nat then (<[0%nat := word v1 (N - 1)]> v1, 1%nat)
                       else (v1, S i) in
      let j' := if (length key <=? S j)%nat then 0%nat else S j in
      mix_key k' key v2 i' j'
  end.

(** The second loop of [init_by_array]. *)
Fixpoint mix_index (k : nat) (v : list Z) (i : nat) : list Z :=
  match k with
  | O => v
  | S k' =>
      let prev := word v (i - 1) in
      let x := uint32 (Z.lxor (word v i)
                              (uint32 (Z.lxor prev (Z.shiftr prev 30) * 1566083941))
                       - Z.of_nat i) in
      let v1 := <[i := x]> v in
      let '(v2, i') := if (N <=? S i)%nat then (<[0%nat := word v1 (N - 1)]> v1, 1%nat)
                       else (v1, S i) in
      mix_index k' v2 i'
  end.

Definition init_by_array (key : list Z) : state :=
  let '(v, i) := mix_key (Nat.max N (length key)) key (init_genrand 19650218) 1 0 in
  State (<[0%nat := 2147483648]> (mix_index (N - 1) v i)) N.

(** The 32-bit digits of a non-negative integer, least significant first. *)
Fixpoint digits32 (fuel : nat) (n : Z) : list Z :=
  match fuel with
  | O => []
  | S fuel' => if n =? 0 then [] else n mod 2 ^ 32 :: digits32 fuel' (n / 2 ^ 32)
  end.

(** [random.seed(a)] for an [int]: the key is [abs(a)], one word at least. *)
Definition seed (a : Z) : state :=
  let n := Z.abs a in
  init_by_array (match digits32 (S (Z.to_nat (Z.log2 n))) n with
                 | [] => [0]
                 | ws => ws
                 end).

(** One step of the regeneration of the 624 words. *)
Fixpoint twist (kk count : nat) (v : list Z) : list Z :=
  match count with
  | O => v
  | S count' =>
      let y := Z.lor (Z.land (word v kk) 2147483648)
                     (Z.land (word v (S kk mod N)) 2147483647) in
      let x := Z.lxor (Z.lxor (word v ((kk + M) mod N)) (Z.shiftr y 1))
                      (if Z.testbit y 0 then 2567483615 else 0) in
      twist (S kk) count' (<[kk := x]> v)
  end.

Definition temper (y0 : Z) : Z :=
  let y1 := Z.lxor y0 (Z.shiftr y0 11) in
  let y2 := Z.lxor y1 (Z.land (Z.shiftl y1 7) 2636928640) in
  let y3 := Z.lxor y2 (Z.land (Z.shiftl y2 15) 4022730752) in
  Z.lxor y3 (Z.shiftr y3 18).

Definition genrand_uint32 (g : state) : Z * state :=
  let '(v, i) := if (N <=? mti g)%nat then (twist 0 N (mt g), 0%nat)
                 else (mt g, mti g) in
  (uint32 (temper (word v i)), State v (S i)).

(** [getrandbits(k)], the words least significant first. *)
Fixpoint getrandbits_words (words : nat) (k : Z) (g : state) : Z * state :=
  match words with
  | O => (0, g)
  | S words' =>
      let '(r, g1) := genrand_uint32 g in
      let r' := if k <? 32 then Z.shiftr r (32 - k) else r in
      let '(rest, g2) := getrandbits_words words' (k - 32) g1 in
      (r' + Z.shiftl rest 32, g2)
  end.

Definition getrandbits (k : Z) (g : state) : Z * state :=
  if k <=? 32 then
    let '(r, g1) := genrand_uint32 g in (Z.shiftr r (32 - k), g1)
  else getrandbits_words (Z.to_nat ((k - 1) / 32 + 1)) k g.

(** [_randbelow(n)]: draw [n.bit_length()] bits until the value is below
    [n].  The loop is cut after [fuel] rejections, each of which has
    probability below one half. *)
Fixpoint randbelow_loop (fuel : nat) (n k : Z) (g : state) : Z * state :=
  let '(r, g1) := getrandbits k g in
  if r <? n then (r, g1)
  else match fuel with
       | O => (0, g1)
       | S fuel' => randbelow_loop fuel' n k g1
       end.

Definition randbelow (n : Z) (g : state) : Z * state :=
  randbelow_loop 1000 n (Z.log2 n + 1) g.

(** [randint(a, b)] is [a + _randbelow(b - a + 1)]. *)
Definition randint (a b : Z) (g : state) : Z * state :=
  let '(r, g1) := randbelow (b - a + 1) g in (a + r, g1).

(** [random()]: 53 bits out of two words. *)
Definition random (g : state) : Q * state :=
  let '(a, g1) := genrand_uint32 g in
  let '(b, g2) := genrand_uint32 g1 in
  ((Z.shiftr a 5 * 67108864 + Z.shiftr b 6) # 9007199254740992, g2).

End Mt19937.

#[global] Arguments Mt19937.genrand_uint32 : simpl never.
#[global] Arguments Mt19937.getrandbits : simpl never.
#[global] Arguments Mt19937.randbelow_loop : simpl never.
#[global] Arguments Mt19937.seed : simpl never.

(** The [random] module of CPython as an instance of the environment. *)
Definition cpython : Random := {|
  rng := Mt19937.state;
  rng_seed := Mt19937.seed;
  rng_randint := Mt19937.randint;
  rng_random := Mt19937.random
|}.

(** A path made of a file name alone. *)
Fixpoint plain_name (path : string) : bool :=
  match path with
  | EmptyString => true
  | String a path' => negb (Ascii.eqb a "/") && plain_name path'
  end.

(** A working directory that is writable and holds nothing: a file name
    opens the file of that name, every other path is refused. *)
Definition empty_directory : filesystem :=
  Filesystem ∅ (fun path =>
    if plain_name path && negb (String.eqb path EmptyString)
    then Some (Regular path) else None).

(** A process started in such a directory, in which the generator was
    last seeded with 1 and nothing was printed. *)
Definition w_init : world cpython :=
  World (R := cpython) (Mt19937.seed 1) empty_directory EmptyString.

(** ** Specification vocabulary *)

(** [safe p Q]: whatever the generator answers within its contract, [p]
    raises nothing and returns a value in [Q].  A program that opens a
    file is never [safe]: whether it raises is up to the file system. *)
Fixpoint safe {A : Type} (p : prog A) (Q : A -> Prop) : Prop :=
  match p with
  | Ret a => Q a
  | Raise _ => False
  | Seed _ k => safe k Q
  | RandInt lo hi k => lo <= hi /\ forall v, lo <= v <= hi -> safe (k v) Q
  | RandomF k => forall q, (0 <= q)%Q -> (q < 1)%Q -> safe (k q) Q
  | OpenW _ _ => False
  | Write _ _ k => safe k Q
  | Print _ k => safe k Q
  end.

(** [silent p]: no path of [p] opens a file, writes or prints. *)
Fixpoint silent {A : Type} (p : prog A) : Prop :=
  match p with
  | Ret _ => True
  | Raise _ => True
  | Seed _ k => silent k
  | RandInt _ _ k => forall v, silent (k v)
  | RandomF k => forall q, silent (k q)
  | OpenW _ _ => False
  | Write _ _ _ => False
  | Print _ _ => False
  end.

(** [seedless p]: no path of [p] seeds the generator. *)
Fixpoint seedless {A : Type} (p : prog A) : Prop :=
  match p with
  | Ret _ => True
  | Raise _ => True
  | Seed _ _ => False
  | RandInt _ _ k => forall v, seedless (k v)
  | RandomF k => forall q, seedless (k q)
  | OpenW _ k => forall fh, seedless (k fh)
  | Write _ _ k => seedless k
  | Print _ k => seedless k
  end.

(** [drawn_from R g t g']: asked for the draws of [t] one after the other
    from the state [g], the generator gives the answers recorded in [t]
    and ends in the state [g']. *)
Fixpoint drawn_from (R : Random) (g : rng R) (t : list draw) (g' : rng R)
  : Prop :=
  match t with
  | [] => g' = g
  | DrawInt lo hi v :: t' =>
      (rng_randint R lo hi g).1 = v /\
      drawn_from R (rng_randint R lo hi g).2 t' g'
  | DrawFloat q :: t' =>
      (rng_random R g).1 = q /\ drawn_from R (rng_random R g).2 t' g'
  end.

(** [M[i][j]], when it exists. *)
Definition cell (M : matrix) (i j : nat) : option Z :=
  match M !! i with
  | Some row => row !! j
  | None => None
  end.

(** [n] rows of [n] entries each. *)
Definition square (n : nat) (M : matrix) : Prop :=
  length M = n /\ forall i row, M !! i = Some row -> length row = n.

(** [M'] is [M] with the entry at [(i, j)] replaced by a value in [P]. *)
Definition stored (n : nat) (M : matrix) (i j : nat) (P : Z -> Prop)
    (M' : matrix) : Prop :=
  square n M' /\
  (exists v, cell M' i j = Some v /\ P v) /\
  forall i' j', (i' <> i \/ j' <> j) -> cell M' i' j' = cell M i' j'.

(** Every entry exists and satisfies [P] at its position. *)
Definition filled (n : nat) (P : nat -> nat -> Z -> Prop) (M : matrix) : Prop :=
  square n M /\
  forall i j, (i < n)%nat -> (j < n)%nat -> exists v, cell M i j = Some v /\ P i j v.

(** The cluster ids in closed form; [cluster_of_ret] ties it to line 13. *)
Definition cluster_ids (n clusters : Z) : list Z :=
  (fun i : nat => Z.of_nat i * clusters / n) <$> range n.

(** The range of a distance entry, by position. *)
Definition distance_ok (cl : list Z) (i j : nat) (d : Z) : Prop :=
  (i = j -> d = 0) /\
  (i <> j -> forall ci cj, cl !! i = Some ci -> cl !! j = Some cj ->
     (ci = cj -> 1 <= d <= 10) /\
     (ci <> cj -> 30 + Z.abs (ci - cj) * 10 <= d
                       <= 30 + Z.abs (ci - cj) * 10 + 19)).

(** The range of a flow entry, by position. *)
Definition flow_ok (cl : list Z) (i j : nat) (f : Z) : Prop :=
  (i = j -> f = 0) /\
  (i <> j -> forall ci cj, cl !! i = Some ci -> cl !! j = Some cj ->
     (ci = cj -> 80 <= f <= 200) /\
     (ci <> cj -> 5 <= f <= 80 \/ 120 <= f <= 220)).

(** ** The instance file format

    The file as the format prescribes it, and a reader that accepts this
    format and nothing else. *)

(** The concatenation of a list of strings. *)
Definition text_of (parts : list string) : string :=
  foldr String.append EmptyString parts.

(** Line 1 is [size]; then the rows of [distance], then the rows of
    [flow], one line each, every line ended by a newline. *)
Definition instance_text (n : Z) (D F : matrix) : string :=
  text_of ((str n ++ newline)%string :: (row_line <$> D) ++ (row_line <$> F)).

(** [s.split(sep)] for a separator of one character. *)
Fixpoint split_on (sep : ascii) (s : string) : list string :=
  match s with
  | EmptyString => [EmptyString]
  | String a s' =>
      if Ascii.eqb a sep then EmptyString :: split_on sep s'
      else match split_on sep s' with
           | [] => [String a EmptyString]
           | part :: parts => String a part :: parts
           end
  end.

(** [int(s)] for the decimal texts that [str] produces. *)
Definition parse_int (s : string) : option Z :=
  Z.of_int <$> NilZero.int_of_string s.

(** A row line, without its newline: [k] integers separated by single
    spaces. *)
Definition parse_row (k : nat) (line : string) : option (list Z) :=
  row ← mapM parse_int (split_on " " line);
  if decide (length row = k) then Some row else None.

(** Modelled from the spec: the reader of the file format of section 6
    (line 1 is [size], the next [size] lines are the rows of [distance],
    the next [size] lines the rows of [flow], nothing follows).  The
    repository has no reader of its own. *)
Definition parse_instance (text : string) : option (Z * matrix * matrix) :=
  match split_on (ascii_of_nat 10) text with
  | [] => None
  | first :: rest =>
      n ← parse_int first;
      let k := Z.to_nat n in
      D ← mapM (parse_row k) (take k rest);
      F ← mapM (parse_row k) (take k (drop k rest));
      if decide (drop (k + k) rest = [EmptyString] /\
                 length D = k /\ length F = k)
      then Some (n, D, F) else None
  end.

(** The character [c] does not occur in [s]. *)
Fixpoint lacks (c : ascii) (s : string) : Prop :=
  match s with
  | EmptyString => True
  | String a s' => a <> c /\ lacks c s'
  end.

(** A row line without its newline. *)
Definition row_text (row : list Z) : string := join " " (str <$> row).

(** ** Further vocabulary *)

(** The first location of cluster [k]: the ceiling of
    [k * n / clusters]. *)
Definition block_start (n clusters k : Z) : Z :=
  (k * n + clusters - 1) / clusters.

(** The number of locations that [cl] puts in cluster [k]. *)
Definition cluster_size (cl : list Z) (k : Z) : Z :=
  Z.of_nat (length (filter (fun ci => ci = k) cl)).

(** [traced p Q]: whatever the generator answers within its contract, [p]
    raises nothing, and the draws it makes, oldest first, together with
    the value it returns are in [Q]. *)
Fixpoint traced {A : Type} (p : prog A) (Q : list draw -> A -> Prop) : Prop :=
  match p with
  | Ret a => Q [] a
  | Raise _ => False
  | Seed _ k => traced k Q
  | RandInt lo hi k =>
      lo <= hi /\
      forall v, lo <= v <= hi -> traced (k v) (fun t => Q (DrawInt lo hi v :: t))
  | RandomF k =>
      forall q, (0 <= q)%Q -> (q < 1)%Q ->
                traced (k q) (fun t => Q (DrawFloat q :: t))
  | OpenW _ _ => False
  | Write _ _ k => traced k Q
  | Print _ k => traced k Q
  end.

(** The positions of an [n] x [n] matrix in the order in which the two
    nested loops visit them. *)
Definition cells (n : nat) : list (nat * nat) :=
  i ← seq 0 n; (fun j => (i, j)) <$> seq 0 n.

(** The positions visited before [(i, k)]. *)
Definition cells_before (n i k : nat) : list (nat * nat) :=
  (i' ← seq 0 i; (fun j => (i', j)) <$> seq 0 n) ++
  ((fun j => (i, j)) <$> seq 0 k).

(** [groups] lists, position by position in loop order, the draws made
    for that position; [G i j g v] relates the draws [g] of position
    [(i, j)] to the entry [v] found there. *)
Definition drawn_cells (G : nat -> nat -> list draw -> Z -> Prop)
    (positions : list (nat * nat)) (M : matrix) (groups : list (list draw))
  : Prop :=
  Forall2 (fun ij g => exists v, cell M ij.1 ij.2 = Some v /\ G ij.1 ij.2 g v)
          positions groups.

(** Lines 19-28 seen from the generator: no draw on the diagonal, and
    elsewhere one draw [r], from [0..9] inside a cluster and from [0..19]
    between two clusters, which the entry is an offset of. *)
Definition distance_drawn (cl : list Z) (i j : nat) (g : list draw) (d : Z)
  : Prop :=
  (i = j /\ g = [] /\ d = 0) \/
  (i <> j /\ exists ci cj r,
     cl !! i = Some ci /\ cl !! j = Some cj /\
     ((ci = cj /\ 0 <= r <= 9 /\ g = [DrawInt 0 9 r] /\ d = 1 + r) \/
      (ci <> cj /\ 0 <= r <= 19 /\ g = [DrawInt 0 19 r] /\
       d = 30 + Z.abs (ci - cj) * 10 + r))).

(** Lines 33-45 seen from the generator: no draw on the diagonal; inside
    a cluster one draw from [80..200], which is the entry; between two
    clusters a probability [p] and then the entry, from [120..220] when
    [p < 0.05] and from [5..80] otherwise. *)
Definition flow_drawn (cl : list Z) (i j : nat) (g : list draw) (f : Z)
  : Prop :=
  (i = j /\ g = [] /\ f = 0) \/
  (i <> j /\ exists ci cj,
     cl !! i = Some ci /\ cl !! j = Some cj /\
     ((ci = cj /\ 80 <= f <= 200 /\ g = [DrawInt 80 200 f]) \/
      (ci <> cj /\ exists p,
         (Qltb p float_0_05 = true /\ 120 <= f <= 220 /\
          g = [DrawFloat p; DrawInt 120 220 f]) \/
         (Qltb p float_0_05 = false /\ 5 <= f <= 80 /\
          g = [DrawFloat p; DrawInt 5 80 f])))).

(** ** Reasoning about programs *)

Lemma bind_ret_l {A B} (a : A) (f : A -> prog B) : (Ret a ≫= f) = f a.
Proof. reflexivity. Qed.

Lemma safe_mono {A} (p : prog A) (Q Q' : A -> Prop) :
  safe p Q -> (forall a, Q a -> Q' a) -> safe p Q'.
Proof.
  induction p as [a|e|s k IH|lo hi k IH|k IH|pa k IH|pa s k IH|s k IH];
    simpl; intros Hp HQ; eauto.
  destruct Hp as [Hle Hk]. split; [exact Hle|]. intros v Hv. eauto.
Qed.

Lemma safe_bind {A B} (p : prog A) (f : A -> prog B) (Q : B -> Prop) :
  safe p (fun a => safe (f a) Q) -> safe (p ≫= f) Q.
Proof.
  unfold mbind, prog_bind.
  induction p as [a|e|s k IH|lo hi k IH|k IH|pa k IH|pa s k IH|s k IH];
    simpl; intros Hp; auto.
  destruct Hp as [Hle Hk]. split; [exact Hle|]. intros v Hv. auto.
Qed.

Lemma safe_randint {B} (lo hi : Z) (f : Z -> prog B) (Q : B -> Prop) :
  lo <= hi -> (forall v, lo <= v <= hi -> safe (f v) Q) ->
  safe (randint lo hi ≫= f) Q.
Proof. intros Hle Hf. apply safe_bind. simpl. auto. Qed.

Lemma safe_random {B} (f : Q -> prog B) (P : B -> Prop) :
  (forall q, (0 <= q)%Q -> (q < 1)%Q -> safe (f q) P) ->
  safe (random ≫= f) P.
Proof. intros Hf. apply safe_bind. simpl. auto. Qed.

Lemma silent_bind {A B} (p : prog A) (f : A -> prog B) :
  silent p -> (forall a, silent (f a)) -> silent (p ≫= f).
Proof.
  unfold mbind, prog_bind.
  induction p as [a|e|s k IH|lo hi k IH|k IH|pa k IH|pa s k IH|s k IH];
    simpl; intros Hp Hf; auto.
Qed.

Lemma silent_for {J S} (xs : list J) (body : J -> S -> prog S) (s : S) :
  (forall x s', silent (body x s')) -> silent (for_ xs body s).
Proof.
  intros Hb. revert s. induction xs as [|x xs IH]; intros s; simpl; [exact I|].
  apply silent_bind; auto.
Qed.

Lemma silent_comprehension {J B} (f : J -> prog B) (xs : list J) :
  (forall x, silent (f x)) -> silent (comprehension f xs).
Proof.
  intros Hf. induction xs as [|x xs IH]; simpl; [exact I|].
  apply silent_bind; [apply Hf|]. intros y.
  apply silent_bind; [exact IH|]. intros ys. exact I.
Qed.

(** The rule for [for k in range(n)], with an invariant indexed by the
    number of iterations done. *)
Lemma safe_for_seq {S} (body : nat -> S -> prog S) (Inv : nat -> S -> Prop)
    (a m : nat) (s : S) :
  Inv a s ->
  (forall k s', (a <= k < a + m)%nat -> Inv k s' ->
                safe (body k s') (Inv (Datatypes.S k))) ->
  safe (for_ (seq a m) body s) (Inv (a + m)%nat).
Proof.
  revert a s. induction m as [|m IH]; intros a s H0 Hstep; simpl.
  - rewrite Nat.add_0_r. exact H0.
  - apply safe_bind.
    eapply safe_mono; [apply Hstep; [lia|exact H0]|].
    intros s' Hs'. simpl in Hs'.
    replace (a + Datatypes.S m)%nat with (Datatypes.S a + m)%nat by lia.
    apply IH; [exact Hs'|]. intros k s'' Hk. apply Hstep. lia.
Qed.

Lemma safe_for_range {S} (body : nat -> S -> prog S) (Inv : nat -> S -> Prop)
    (n : Z) (s : S) :
  Inv 0%nat s ->
  (forall k s', (k < Z.to_nat n)%nat -> Inv k s' ->
                safe (body k s') (Inv (Datatypes.S k))) ->
  safe (for_ (range n) body s) (Inv (Z.to_nat n)).
Proof.
  intros H0 Hstep. unfold range.
  change (Z.to_nat n) with (0 + Z.to_nat n)%nat at 2.
  apply safe_for_seq; [exact H0|]. intros k s' Hk. apply Hstep. lia.
Qed.

Section Run.

Variable R : Random.

Lemma run_safe {A} (p : prog A) (Q : A -> Prop) (w : world R) :
  lawful R -> safe p Q -> exists a, result (run R p w) = inr a /\ Q a.
Proof.
  intros HR. revert w.
  induction p as [a|e|s k IH|lo hi k IH|k IH|pa k IH|pa s k IH|s k IH];
    simpl; intros w Hp; eauto.
  - contradiction.
  - destruct Hp as [Hle Hk].
    destruct (Z.ltb_spec hi lo) as [Hlt|_]; [lia|].
    pose proof (rng_randint_range R HR lo hi (w_rng w) Hle) as Hv.
    destruct (rng_randint R lo hi (w_rng w)) as [v g]. simpl in Hv.
    simpl. apply IH, Hk, Hv.
  - pose proof (rng_random_range R HR (w_rng w)) as [H0 H1].
    destruct (rng_random R (w_rng w)) as [q g]. simpl in H0, H1.
    simpl. apply IH, Hp; assumption.
  - contradiction.
  - destruct pa; apply IH, Hp.
Qed.

Lemma run_silent {A} (p : prog A) (w : world R) :
  silent p ->
  w_fs (final (run R p w)) = w_fs w /\
  w_stdout (final (run R p w)) = w_stdout w.
Proof.
  revert w.
  induction p as [a|e|s k IH|lo hi k IH|k IH|pa k IH|pa s k IH|s k IH];
    simpl; intros w Hp; try contradiction; auto.
  - apply (IH (World (rng_seed R s) (w_fs w) (w_stdout w)) Hp).
  - destruct (hi <? lo); [auto|].
    destruct (rng_randint R lo hi (w_rng w)) as [v g]. simpl.
    apply (IH v (World g (w_fs w) (w_stdout w)) (Hp v)).
  - destruct (rng_random R (w_rng w)) as [q g]. simpl.
    apply (IH q (World g (w_fs w) (w_stdout w)) (Hp q)).
Qed.

(** A program that opens no file cannot tell one file system or console
    from another: the value, the draws and the generator state after a
    run depend on the generator state before it and on nothing else. *)
Lemma run_rng_only {A} (p : prog A) (w1 w2 : world R) :
  silent p ->
  w_rng w1 = w_rng w2 ->
  result (run R p w1) = result (run R p w2) /\
  draws (run R p w1) = draws (run R p w2) /\
  w_rng (final (run R p w1)) = w_rng (final (run R p w2)).
Proof.
  revert w1 w2.
  induction p as [a|e|s k IH|lo hi k IH|k IH|pa k IH|pa s k IH|s k IH];
    simpl; intros w1 w2 Hp Hg; try contradiction; auto.
  - destruct (hi <? lo); [auto|]. rewrite Hg.
    destruct (rng_randint R lo hi (w_rng w2)) as [v g]. simpl.
    destruct (IH v (World g (w_fs w1) (w_stdout w1))
                 (World g (w_fs w2) (w_stdout w2)) (Hp v) eq_refl)
      as (-> & -> & ->).
    auto.
  - rewrite Hg. destruct (rng_random R (w_rng w2)) as [q g]. simpl.
    destruct (IH q (World g (w_fs w1) (w_stdout w1))
                 (World g (w_fs w2) (w_stdout w2)) (Hp q) eq_refl)
      as (-> & -> & ->).
    auto.
Qed.

(** Running a sequence: the first part, then the rest from where it
    stopped; an exception in the first part ends the run. *)
Lemma run_bind {A B} (p : prog A) (f : A -> prog B) (w : world R) :
  run R (p ≫= f) w =
  match result (run R p w) with
  | inl e => Outcome (inl e) (final (run R p w)) (draws (run R p w))
  | inr a =>
      let o := run R (f a) (final (run R p w)) in
      Outcome (result o) (final o) (draws (run R p w) ++ draws o)
  end.
Proof.
  unfold mbind, prog_bind. revert w.
  induction p as [a|e|s k IH|lo hi k IH|k IH|pa k IH|pa s k IH|s k IH];
    simpl; intros w; auto.
  - destruct (run R (f a) w); reflexivity.
  - destruct (hi <? lo); [reflexivity|].
    destruct (rng_randint R lo hi (w_rng w)) as [v g].
    rewrite IH. simpl.
    destruct (result (run R (k v) _)); reflexivity.
  - destruct (rng_random R (w_rng w)) as [q g].
    rewrite IH. simpl.
    destruct (result (run R (k q) _)); reflexivity.
  - destruct (fs_open (w_fs w) pa) as [[file|]|]; auto.
  - destruct pa; auto.
Qed.

End Run.

(** ** Matrices *)

Lemma zeros_square (n : Z) : square (Z.to_nat n) (zeros n).
Proof.
  unfold zeros, range. split.
  - rewrite length_fmap, length_seq. reflexivity.
  - intros i row Hrow. rewrite list_lookup_fmap in Hrow.
    destruct (seq 0 (Z.to_nat n) !! i); simpl in Hrow; [|discriminate].
    injection Hrow as <-. apply length_replicate.
Qed.

Lemma setitem2_stored (n : nat) (M : matrix) (i j : nat) (v : Z)
    (P : Z -> Prop) :
  square n M -> (i < n)%nat -> (j < n)%nat -> P v ->
  safe (setitem2 M i j v) (stored n M i j P).
Proof.
  intros [Hlen Hrows] Hi Hj Hv. unfold setitem2, getitem.
  destruct (M !! i) as [row|] eqn:Hrow.
  2:{ apply lookup_ge_None in Hrow. lia. }
  pose proof (Hrows i row Hrow) as Hr.
  rewrite bind_ret_l.
  destruct (Nat.ltb_spec j (length row)) as [_|Hge]; [|lia].
  simpl. split; [|split].
  - split; [rewrite length_insert; exact Hlen|].
    intros i' row' Hrow'.
    destruct (decide (i = i')) as [<-|Hne].
    + rewrite list_lookup_insert_eq in Hrow' by lia.
      injection Hrow' as <-. rewrite length_insert. exact Hr.
    + rewrite list_lookup_insert_ne in Hrow' by exact Hne. eauto.
  - exists v. split; [|exact Hv]. unfold cell.
    rewrite list_lookup_insert_eq by lia.
    apply list_lookup_insert_eq. lia.
  - intros i' j' Hne. unfold cell.
    destruct (decide (i = i')) as [<-|Hi'].
    + rewrite list_lookup_insert_eq by lia. rewrite Hrow.
      apply list_lookup_insert_ne. destruct Hne; congruence.
    + rewrite list_lookup_insert_ne by exact Hi'. reflexivity.
Qed.

(** Two nested [range(n)] loops whose body stores one entry per [(i, j)]
    fill the whole matrix. *)
Lemma safe_fill (n : Z) (body : nat -> nat -> matrix -> prog matrix)
    (P : nat -> nat -> Z -> Prop) (M0 : matrix) :
  square (Z.to_nat n) M0 ->
  (forall i j M, (i < Z.to_nat n)%nat -> (j < Z.to_nat n)%nat ->
                 square (Z.to_nat n) M ->
                 safe (body i j M) (stored (Z.to_nat n) M i j (P i j))) ->
  safe (for_ (range n) (fun i M => for_ (range n) (fun j M => body i j M) M) M0)
       (filled (Z.to_nat n) P).
Proof.
  intros Hsq Hbody. set (N := Z.to_nat n) in *.
  pose (rows_done := fun (i : nat) (M : matrix) =>
    square N M /\
    forall i' j', (i' < i)%nat -> (j' < N)%nat ->
                  exists v, cell M i' j' = Some v /\ P i' j' v).
  pose (cells_done := fun (i k : nat) (M : matrix) =>
    rows_done i M /\
    forall j', (j' < k)%nat -> exists v, cell M i j' = Some v /\ P i j' v).
  eapply safe_mono.
  - apply (safe_for_range _ rows_done).
    + split; [exact Hsq|]. intros i' j' Hi'. lia.
    + intros i M Hi Hrows.
      eapply safe_mono.
      * apply (safe_for_range _ (cells_done i)).
        -- split; [exact Hrows|]. intros j' Hj'. lia.
        -- intros k M' Hk [[Hsq' Hprev] Hrow].
           eapply safe_mono; [apply Hbody; assumption|].
           intros M'' (Hsq'' & (v & Hv & HP) & Hframe).
           split; [split; [exact Hsq''|]|].
           ++ intros i' j' Hi' Hj'. rewrite Hframe by lia. auto.
           ++ intros j' Hj'.
              destruct (decide (j' = k)) as [->|Hne]; [eauto|].
              rewrite Hframe by lia. apply Hrow. lia.
      * intros M' [[Hsq' Hprev] Hrow]. split; [exact Hsq'|].
        intros i' j' Hi' Hj'.
        destruct (decide (i' = i)) as [->|Hne]; [auto|].
        apply Hprev; lia.
  - intros M [Hsq' Hall]. split; [exact Hsq'|]. auto.
Qed.

(** ** What [generate] computes *)

Lemma comprehension_ret {J B} (f : J -> prog B) (g : J -> B) (xs : list J) :
  (forall x, x ∈ xs -> f x = Ret (g x)) ->
  comprehension f xs = Ret (g <$> xs).
Proof.
  induction xs as [|x xs IH]; intros Hf; simpl; [reflexivity|].
  rewrite Hf by apply list_elem_of_here.
  rewrite bind_ret_l, IH; [reflexivity|].
  intros y Hy. apply Hf. apply list_elem_of_further, Hy.
Qed.

(** The comprehension of line 13 never divides by zero: with [n = 0] the
    range is empty and the division is not evaluated. *)
Lemma cluster_of_ret (n clusters : Z) :
  cluster_of n clusters =
  Ret ((fun i : nat => Z.of_nat i * clusters / n) <$> range n).
Proof.
  unfold cluster_of. apply comprehension_ret. intros i Hi.
  unfold floordiv. destruct (Z.eqb_spec n 0) as [->|_]; [|reflexivity].
  unfold range in Hi. simpl in Hi. inversion Hi.
Qed.

Lemma range_lookup (n : Z) (i : nat) :
  (i < Z.to_nat n)%nat -> range n !! i = Some i.
Proof. intros Hi. unfold range. apply lookup_seq_lt. exact Hi. Qed.

Lemma range_length (n : Z) : length (range n) = Z.to_nat n.
Proof. apply length_seq. Qed.

Lemma getitem_ret {A} (l : list A) (i : nat) (x : A) :
  l !! i = Some x -> getitem l i = Ret x.
Proof. intros H. unfold getitem. rewrite H. reflexivity. Qed.

Ltac run_getitems :=
  repeat match goal with
         | H : ?l !! ?i = Some _ |- context [getitem ?l ?i] =>
             rewrite !(getitem_ret l i _ H)
         end;
  repeat (rewrite bind_ret_l; cbv beta).

Lemma distance_cell_stored (cl : list Z) (n : nat) (D : matrix) (i j : nat) :
  length cl = n -> square n D -> (i < n)%nat -> (j < n)%nat ->
  safe (distance_cell cl i j D) (stored n D i j (distance_ok cl i j)).
Proof.
  intros Hcl Hsq Hi Hj. unfold distance_cell.
  destruct (Nat.eqb_spec i j) as [Heq|Hne].
  - apply setitem2_stored; try assumption.
    split; [reflexivity|]. intros Hne. contradiction.
  - destruct (lookup_lt_is_Some_2 cl i) as [ci Hci]; [lia|].
    destruct (lookup_lt_is_Some_2 cl j) as [cj Hcj]; [lia|].
    run_getitems.
    destruct (Z.eqb_spec ci cj) as [Hsame|Hdiff].
    + apply safe_randint; [lia|]. intros r Hr.
      apply setitem2_stored; try assumption.
      split; [intros; contradiction|]. intros _ ci' cj' Hi' Hj'.
      rewrite Hci in Hi'. rewrite Hcj in Hj'.
      injection Hi' as <-. injection Hj' as <-.
      split; [lia|]. intros Hd. contradiction.
    + apply safe_randint; [lia|]. intros r Hr.
      apply setitem2_stored; try assumption.
      split; [intros; contradiction|]. intros _ ci' cj' Hi' Hj'.
      rewrite Hci in Hi'. rewrite Hcj in Hj'.
      injection Hi' as <-. injection Hj' as <-.
      split; [intros Hs; contradiction|]. intros _. lia.
Qed.

Lemma flow_cell_stored (cl : list Z) (n : nat) (F : matrix) (i j : nat) :
  length cl = n -> square n F -> (i < n)%nat -> (j < n)%nat ->
  safe (flow_cell cl i j F) (stored n F i j (flow_ok cl i j)).
Proof.
  intros Hcl Hsq Hi Hj. unfold flow_cell.
  destruct (Nat.eqb_spec i j) as [Heq|Hne].
  - apply setitem2_stored; try assumption.
    split; [reflexivity|]. intros Hne. contradiction.
  - destruct (lookup_lt_is_Some_2 cl i) as [ci Hci]; [lia|].
    destruct (lookup_lt_is_Some_2 cl j) as [cj Hcj]; [lia|].
    run_getitems.
    destruct (Z.eqb_spec ci cj) as [Hsame|Hdiff].
    + apply safe_randint; [lia|]. intros r Hr.
      apply setitem2_stored; try assumption.
      split; [intros; contradiction|]. intros _ ci' cj' Hi' Hj'.
      rewrite Hci in Hi'. rewrite Hcj in Hj'.
      injection Hi' as <-. injection Hj' as <-.
      split; [lia|]. intros Hd. contradiction.
    + assert (Hcross : forall r, 5 <= r <= 80 \/ 120 <= r <= 220 ->
                safe (setitem2 F i j r) (stored n F i j (flow_ok cl i j))).
      { intros r Hr. apply setitem2_stored; try assumption.
        split; [intros; contradiction|]. intros _ ci' cj' Hi' Hj'.
        rewrite Hci in Hi'. rewrite Hcj in Hj'.
        injection Hi' as <-. injection Hj' as <-.
        split; [intros Hs; contradiction|intros _; exact Hr]. }
      apply safe_random. intros p _ _.
      destruct (Qltb p float_0_05).
      * apply safe_randint; [lia|]. intros r Hr.
        apply Hcross. lia.
      * apply safe_randint; [lia|]. intros r Hr.
        apply Hcross. lia.
Qed.

Lemma cluster_ids_length (n clusters : Z) :
  length (cluster_ids n clusters) = Z.to_nat n.
Proof. unfold cluster_ids. rewrite length_fmap. apply range_length. Qed.

Lemma cluster_ids_lookup (n clusters : Z) (i : nat) :
  (i < Z.to_nat n)%nat ->
  cluster_ids n clusters !! i = Some (Z.of_nat i * clusters / n).
Proof.
  intros Hi. unfold cluster_ids.
  rewrite list_lookup_fmap, range_lookup by exact Hi. reflexivity.
Qed.

Lemma seed_bind {B} (s : Z) (f : unit -> prog B) :
  (seed s ≫= f) = Seed s (f tt).
Proof. reflexivity. Qed.

(** Whatever the generator answers, [generate] raises nothing and returns
    two full [n] x [n] matrices with every entry in the range of its
    position. *)
Lemma generate_safe (n clusters sd : Z) :
  safe (generate n clusters sd)
       (fun DF => filled (Z.to_nat n) (distance_ok (cluster_ids n clusters)) DF.1 /\
                  filled (Z.to_nat n) (flow_ok (cluster_ids n clusters)) DF.2).
Proof.
  unfold generate. rewrite seed_bind. simpl safe.
  rewrite cluster_of_ret, bind_ret_l. fold (cluster_ids n clusters).
  apply safe_bind. eapply safe_mono.
  { apply (safe_fill n _ (distance_ok (cluster_ids n clusters))).
    - apply zeros_square.
    - intros i j M Hi Hj Hsq.
      apply distance_cell_stored; auto using cluster_ids_length. }
  intros D HD. apply safe_bind. eapply safe_mono.
  { apply (safe_fill n _ (flow_ok (cluster_ids n clusters))).
    - apply zeros_square.
    - intros i j M Hi Hj Hsq.
      apply flow_cell_stored; auto using cluster_ids_length. }
  intros F HF. simpl. auto.
Qed.

Lemma silent_getitem {A} (l : list A) (i : nat) : silent (getitem l i).
Proof. unfold getitem. destruct (l !! i); exact I. Qed.

Lemma silent_setitem2 (M : matrix) (i j : nat) (v : Z) :
  silent (setitem2 M i j v).
Proof.
  unfold setitem2. apply silent_bind; [apply silent_getitem|].
  intros row. destruct (j <? length row)%nat; exact I.
Qed.

Lemma silent_randint {B} (lo hi : Z) (f : Z -> prog B) :
  (forall v, silent (f v)) -> silent (randint lo hi ≫= f).
Proof. intros Hf. apply silent_bind; [|exact Hf]. intros v. exact I. Qed.

Lemma silent_distance_cell cl i j D : silent (distance_cell cl i j D).
Proof.
  unfold distance_cell. destruct (i =? j)%nat; [apply silent_setitem2|].
  apply silent_bind; [apply silent_getitem|]. intros ci.
  apply silent_bind; [apply silent_getitem|]. intros cj.
  destruct (ci =? cj).
  - apply silent_randint. intros r. apply silent_setitem2.
  - apply silent_bind; [apply silent_getitem|]. intros ci'.
    apply silent_bind; [apply silent_getitem|]. intros cj'.
    apply silent_randint. intros r. apply silent_setitem2.
Qed.

Lemma silent_flow_cell cl i j F : silent (flow_cell cl i j F).
Proof.
  unfold flow_cell. destruct (i =? j)%nat; [apply silent_setitem2|].
  apply silent_bind; [apply silent_getitem|]. intros ci.
  apply silent_bind; [apply silent_getitem|]. intros cj.
  destruct (ci =? cj).
  - apply silent_randint. intros r. apply silent_setitem2.
  - apply silent_bind; [intros q; exact I|]. intros p.
    destruct (Qltb p float_0_05);
      apply silent_randint; intros r; apply silent_setitem2.
Qed.

(** [generate] asks for nothing but the generator. *)
Lemma generate_silent (n clusters sd : Z) : silent (generate n clusters sd).
Proof.
  unfold generate. rewrite seed_bind. simpl silent.
  rewrite cluster_of_ret, bind_ret_l.
  apply silent_bind.
  { apply silent_for. intros i D. apply silent_for. intros j D'.
    apply silent_distance_cell. }
  intros D. apply silent_bind.
  { apply silent_for. intros i F. apply silent_for. intros j F'.
    apply silent_flow_cell. }
  intros F. exact I.
Qed.

(** ** The generator after a run *)

Lemma seedless_bind {A B} (p : prog A) (f : A -> prog B) :
  seedless p -> (forall a, seedless (f a)) -> seedless (p ≫= f).
Proof.
  unfold mbind, prog_bind.
  induction p as [a|e|s k IH|lo hi k IH|k IH|pa k IH|fh s k IH|s k IH];
    simpl; intros Hp Hf; auto.
Qed.

Lemma seedless_for {J S} (xs : list J) (body : J -> S -> prog S) (s : S) :
  (forall x s', seedless (body x s')) -> seedless (for_ xs body s).
Proof.
  intros Hb. revert s. induction xs as [|x xs IH]; intros s; simpl; [exact I|].
  apply seedless_bind; auto.
Qed.

Lemma seedless_getitem {A} (l : list A) (i : nat) : seedless (getitem l i).
Proof. unfold getitem. destruct (l !! i); exact I. Qed.

Lemma seedless_setitem2 (M : matrix) (i j : nat) (v : Z) :
  seedless (setitem2 M i j v).
Proof.
  unfold setitem2. apply seedless_bind; [apply seedless_getitem|].
  intros row. destruct (j <? length row)%nat; exact I.
Qed.

Lemma seedless_randint {B} (lo hi : Z) (f : Z -> prog B) :
  (forall v, seedless (f v)) -> seedless (randint lo hi ≫= f).
Proof. intros Hf. apply seedless_bind; [|exact Hf]. intros v. exact I. Qed.

Lemma seedless_distance_cell cl i j D : seedless (distance_cell cl i j D).
Proof.
  unfold distance_cell. destruct (i =? j)%nat; [apply seedless_setitem2|].
  apply seedless_bind; [apply seedless_getitem|]. intros ci.
  apply seedless_bind; [apply seedless_getitem|]. intros cj.
  destruct (ci =? cj).
  - apply seedless_randint. intros r. apply seedless_setitem2.
  - apply seedless_bind; [apply seedless_getitem|]. intros ci'.
    apply seedless_bind; [apply seedless_getitem|]. intros cj'.
    apply seedless_randint. intros r. apply seedless_setitem2.
Qed.

Lemma seedless_flow_cell cl i j F : seedless (flow_cell cl i j F).
Proof.
  unfold flow_cell. destruct (i =? j)%nat; [apply seedless_setitem2|].
  apply seedless_bind; [apply seedless_getitem|]. intros ci.
  apply seedless_bind; [apply seedless_getitem|]. intros cj.
  destruct (ci =? cj).
  - apply seedless_randint. intros r. apply seedless_setitem2.
  - apply seedless_bind; [intros q; exact I|]. intros p.
    destruct (Qltb p float_0_05);
      apply seedless_randint; intros r; apply seedless_setitem2.
Qed.

(** Without a seeding on the way, the generator ends a run in the state
    that its draws lead to from the state it started in. *)
Lemma run_seedless (R : Random) {A} (p : prog A) (w : world R) :
  seedless p ->
  drawn_from R (w_rng w) (draws (run R p w)) (w_rng (final (run R p w))).
Proof.
  revert w.
  induction p as [a|e|s k IH|lo hi k IH|k IH|pa k IH|fh s k IH|s k IH];
    simpl; intros w Hp; try contradiction; auto.
  - destruct (hi <? lo); [reflexivity|].
    destruct (rng_randint R lo hi (w_rng w)) as [v g] eqn:Hv. simpl.
    rewrite Hv. simpl. split; [reflexivity|].
    apply (IH v (World g (w_fs w) (w_stdout w)) (Hp v)).
  - destruct (rng_random R (w_rng w)) as [q g] eqn:Hq. simpl.
    rewrite Hq. simpl. split; [reflexivity|].
    apply (IH q (World g (w_fs w) (w_stdout w)) (Hp q)).
  - destruct (fs_open (w_fs w) pa) as [[file|]|]; [| |reflexivity].
    + apply (IH (Regular file)
                (World (w_rng w) (fs_truncate file (w_fs w)) (w_stdout w))
                (Hp (Regular file))).
    + apply (IH Stdout w (Hp Stdout)).
  - destruct fh as [file|].
    + apply (IH (World (w_rng w) (fs_append file s (w_fs w)) (w_stdout w)) Hp).
    + apply (IH (World (w_rng w) (w_fs w) (w_stdout w ++ s)%string) Hp).
  - apply (IH (World (w_rng w) (w_fs w) (w_stdout w ++ s)%string) Hp).
Qed.

(** [generate] seeds once, before anything else: the generator ends in
    the state that the draws of the call lead to from the seeded state. *)
Lemma generate_drawn_from (R : Random) (n clusters sd : Z) (w : world R) :
  drawn_from R (rng_seed R sd)
             (draws (run R (generate n clusters sd) w))
             (w_rng (final (run R (generate n clusters sd) w))).
Proof.
  unfold generate. rewrite seed_bind. simpl run.
  apply (run_seedless R _ (World (rng_seed R sd) (w_fs w) (w_stdout w))).
  rewrite cluster_of_ret, bind_ret_l.
  apply seedless_bind.
  { apply seedless_for. intros i D. apply seedless_for. intros j D'.
    apply seedless_distance_cell. }
  intros D. apply seedless_bind.
  { apply seedless_for. intros i F. apply seedless_for. intros j F'.
    apply seedless_flow_cell. }
  intros F. exact I.
Qed.

(** ** CPython's generator meets the contract *)


Lemma uint32_range (x : Z) : 0 <= Mt19937.uint32 x < 2 ^ 32.
Proof. unfold Mt19937.uint32. apply Z.mod_pos_bound. lia. Qed.

Lemma genrand_uint32_range (g : Mt19937.state) :
  0 <= (Mt19937.genrand_uint32 g).1 < 2 ^ 32.
Proof.
  unfold Mt19937.genrand_uint32.
  destruct (if (Mt19937.N <=? Mt19937.mti g)%nat then _ else _) as [v i].
  apply uint32_range.
Qed.

Lemma getrandbits_words_nonneg (words : nat) (k : Z) (g : Mt19937.state) :
  0 <= (Mt19937.getrandbits_words words k g).1.
Proof.
  revert k g. induction words as [|words IH]; intros k g; simpl; [lia|].
  pose proof (genrand_uint32_range g) as Hr.
  destruct (Mt19937.genrand_uint32 g) as [r g1]. simpl in Hr.
  specialize (IH (k - 32) g1).
  destruct (Mt19937.getrandbits_words words (k - 32) g1) as [rest g2].
  simpl in *.
  assert (0 <= Z.shiftl rest 32) by (apply Z.shiftl_nonneg; exact IH).
  destruct (k <? 32); [|lia].
  assert (0 <= Z.shiftr r (32 - k)) by (apply Z.shiftr_nonneg; lia).
  lia.
Qed.

Lemma getrandbits_nonneg (k : Z) (g : Mt19937.state) :
  0 <= (Mt19937.getrandbits k g).1.
Proof.
  unfold Mt19937.getrandbits. destruct (k <=? 32).
  - pose proof (genrand_uint32_range g) as Hr.
    destruct (Mt19937.genrand_uint32 g) as [r g1]. simpl in Hr |- *.
    apply Z.shiftr_nonneg. lia.
  - apply getrandbits_words_nonneg.
Qed.

Lemma randbelow_loop_unfold (fuel : nat) (n k : Z) (g : Mt19937.state) :
  Mt19937.randbelow_loop fuel n k g =
  let '(r, g1) := Mt19937.getrandbits k g in
  if r <? n then (r, g1)
  else match fuel with
       | O => (0, g1)
       | S fuel' => Mt19937.randbelow_loop fuel' n k g1
       end.
Proof. destruct fuel; reflexivity. Qed.

Lemma randbelow_loop_range (fuel : nat) (n k : Z) (g : Mt19937.state) :
  1 <= n -> 0 <= (Mt19937.randbelow_loop fuel n k g).1 < n.
Proof.
  intros Hn. revert g. induction fuel as [|fuel IH]; intros g;
    rewrite randbelow_loop_unfold;
    pose proof (getrandbits_nonneg k g) as Hr;
    destruct (Mt19937.getrandbits k g) as [r g1]; simpl in Hr;
    destruct (Z.ltb_spec r n); simpl; try lia.
  apply IH.
Qed.

Lemma mt_randint_range (lo hi : Z) (g : Mt19937.state) :
  lo <= hi -> lo <= (Mt19937.randint lo hi g).1 <= hi.
Proof.
  intros Hle. unfold Mt19937.randint, Mt19937.randbelow.
  pose proof (randbelow_loop_range 1000 (hi - lo + 1)
                (Z.log2 (hi - lo + 1) + 1) g ltac:(lia)) as Hr.
  destruct (Mt19937.randbelow_loop _ _ _ g) as [r g1]. simpl in Hr |- *. lia.
Qed.

Lemma mt_random_range (g : Mt19937.state) :
  (0 <= (Mt19937.random g).1)%Q /\ ((Mt19937.random g).1 < 1)%Q.
Proof.
  unfold Mt19937.random.
  pose proof (genrand_uint32_range g) as Ha.
  destruct (Mt19937.genrand_uint32 g) as [a g1].
  pose proof (genrand_uint32_range g1) as Hb.
  destruct (Mt19937.genrand_uint32 g1) as [b g2]. simpl in Ha, Hb |- *.
  rewrite !Z.shiftr_div_pow2 by lia.
  assert (0 <= a / 2 ^ 5 < 2 ^ 27).
  { split; [apply Z.div_pos; lia|apply Z.div_lt_upper_bound; lia]. }
  assert (0 <= b / 2 ^ 6 < 2 ^ 26).
  { split; [apply Z.div_pos; lia|apply Z.div_lt_upper_bound; lia]. }
  unfold Qle, Qlt. simpl. lia.
Qed.

Lemma cpython_lawful : lawful cpython.
Proof. split; [exact mt_randint_range|exact mt_random_range]. Qed.

(** ** Properties of [generate] *)

Lemma generate_runs (R : Random) (n clusters sd : Z) (w : world R) :
  lawful R ->
  exists D F,
    result (run R (generate n clusters sd) w) = inr (D, F) /\
    filled (Z.to_nat n) (distance_ok (cluster_ids n clusters)) D /\
    filled (Z.to_nat n) (flow_ok (cluster_ids n clusters)) F.
Proof.
  intros HR.
  destruct (run_safe R _ _ w HR (generate_safe n clusters sd))
    as ([D F] & Hrun & HD & HF).
  exists D, F. auto.
Qed.

(** The first thing [generate] does is to seed: a run from any world is
    the run from that world with the generator freshly seeded. *)
Lemma run_generate_seeded (R : Random) (n clusters sd : Z) (w : world R) :
  run R (generate n clusters sd) w =
  run R (generate n clusters sd)
      (World (rng_seed R sd) (w_fs w) (w_stdout w)).
Proof. reflexivity. Qed.

Lemma run_generate_any_world (R : Random) (n clusters sd : Z)
    (w1 w2 : world R) :
  result (run R (generate n clusters sd) w1) =
    result (run R (generate n clusters sd) w2) /\
  draws (run R (generate n clusters sd) w1) =
    draws (run R (generate n clusters sd) w2) /\
  w_rng (final (run R (generate n clusters sd) w1)) =
    w_rng (final (run R (generate n clusters sd) w2)).
Proof.
  rewrite (run_generate_seeded R n clusters sd w1).
  rewrite (run_generate_seeded R n clusters sd w2).
  apply run_rng_only; [|reflexivity].
  pose proof (generate_silent n clusters sd) as Hs.
  unfold generate in *. rewrite seed_bind in *. exact Hs.
Qed.

Lemma cluster_ids_lt (n clusters : Z) (i : nat) (ci : Z) :
  cluster_ids n clusters !! i = Some ci -> (i < Z.to_nat n)%nat.
Proof.
  intros H. apply lookup_lt_Some in H.
  rewrite cluster_ids_length in H. exact H.
Qed.

(** C1: for every [(size, clusters, seed)] with [size >= 1] and
    [clusters >= 1], two calls of [generate], from whatever states of the
    process, return the same pair of matrices. *)
Theorem generate_deterministic (R : Random) (n clusters sd : Z)
    (w1 w2 : world R) :
  lawful R -> 1 <= n -> 1 <= clusters ->
  exists D F,
    result (run R (generate n clusters sd) w1) = inr (D, F) /\
    result (run R (generate n clusters sd) w2) = inr (D, F).
Proof.
  intros HR _ _.
  destruct (generate_runs R n clusters sd w1 HR) as (D & F & Hrun & _).
  exists D, F. split; [exact Hrun|].
  destruct (run_generate_any_world R n clusters sd w1 w2) as [<- _].
  exact Hrun.
Qed.

(** A first call in [w_init] and a second call in the world the first one
    left behind. *)
Lemma generate_deterministic_witness :
  exists D F,
    result (run cpython (generate 4 2 0) w_init) = inr (D, F) /\
    result (run cpython (generate 4 2 0)
                (final (run cpython (generate 4 2 0) w_init))) = inr (D, F).
Proof. apply generate_deterministic; [exact cpython_lawful | lia | lia]. Defined.

(** C2: for valid input and [i <> j], entries of the same cluster have
    distance in [1..10] and flow in [80..200]; entries of different
    clusters at cluster distance [cd] have distance in
    [30+10*cd .. 30+10*cd+19] and flow in [5..80] or [120..220]. *)
Theorem generate_ranges (R : Random) (n clusters sd : Z) (w : world R) :
  lawful R -> 1 <= n -> 1 <= clusters ->
  exists cl D F,
    cluster_of n clusters = Ret cl /\ length cl = Z.to_nat n /\
    result (run R (generate n clusters sd) w) = inr (D, F) /\
    forall i j ci cj,
      cl !! i = Some ci -> cl !! j = Some cj -> i <> j ->
      exists d f,
        cell D i j = Some d /\ cell F i j = Some f /\
        (ci = cj -> 1 <= d <= 10 /\ 80 <= f <= 200) /\
        (ci <> cj ->
         let cd := Z.abs (ci - cj) in
         30 + cd * 10 <= d <= 30 + cd * 10 + 19 /\
         (5 <= f <= 80 \/ 120 <= f <= 220)).
Proof.
  intros HR _ _.
  destruct (generate_runs R n clusters sd w HR)
    as (D & F & Hrun & [_ HD] & [_ HF]).
  exists (cluster_ids n clusters), D, F.
  split; [apply cluster_of_ret|]. split; [apply cluster_ids_length|].
  split; [exact Hrun|].
  intros i j ci cj Hci Hcj Hne.
  pose proof (cluster_ids_lt _ _ _ _ Hci) as Hi.
  pose proof (cluster_ids_lt _ _ _ _ Hcj) as Hj.
  destruct (HD i j Hi Hj) as (d & Hd & _ & Hdok).
  destruct (HF i j Hi Hj) as (f & Hf & _ & Hfok).
  destruct (Hdok Hne ci cj Hci Hcj) as [Hd1 Hd2].
  destruct (Hfok Hne ci cj Hci Hcj) as [Hf1 Hf2].
  exists d, f. repeat split; auto; try apply Hd1; try apply Hf1;
    try apply Hd2; auto.
Qed.

Lemma generate_ranges_witness :
  exists cl D F,
    cluster_of 4 2 = Ret cl /\ length cl = Z.to_nat 4 /\
    result (run cpython (generate 4 2 0) w_init) = inr (D, F) /\
    forall i j ci cj,
      cl !! i = Some ci -> cl !! j = Some cj -> i <> j ->
      exists d f,
        cell D i j = Some d /\ cell F i j = Some f /\
        (ci = cj -> 1 <= d <= 10 /\ 80 <= f <= 200) /\
        (ci <> cj ->
         let cd := Z.abs (ci - cj) in
         30 + cd * 10 <= d <= 30 + cd * 10 + 19 /\
         (5 <= f <= 80 \/ 120 <= f <= 220)).
Proof. apply generate_ranges; [exact cpython_lawful | lia | lia]. Defined.

Lemma run_random_bind (R : Random) {B} (f : Q -> prog B) (w : world R) :
  run R (random ≫= f) w =
  let '(q, g) := rng_random R (w_rng w) in
  logged (DrawFloat q) (run R (f q) (World g (w_fs w) (w_stdout w))).
Proof. reflexivity. Qed.

Lemma run_randint_bind (R : Random) {B} (lo hi : Z) (f : Z -> prog B)
    (w : world R) :
  lo <= hi ->
  run R (randint lo hi ≫= f) w =
  let '(v, g) := rng_randint R lo hi (w_rng w) in
  logged (DrawInt lo hi v) (run R (f v) (World g (w_fs w) (w_stdout w))).
Proof.
  intros Hle. unfold randint, mbind, prog_bind. simpl.
  destruct (Z.ltb_spec hi lo); [lia|reflexivity].
Qed.

Lemma draws_setitem2 (R : Random) (M : matrix) (i j : nat) (v : Z)
    (w : world R) :
  draws (run R (setitem2 M i j v) w) = [].
Proof.
  unfold setitem2, getitem. destruct (M !! i) as [row|]; [|reflexivity].
  rewrite bind_ret_l. destruct (j <? length row)%nat; reflexivity.
Qed.

(** C3, as the code has it: in the flow loops, an off-diagonal entry
    between two clusters costs exactly two draws on either branch, the
    probability draw and then the magnitude draw: from [120..220] when
    the probability is below 0.05, from [5..80] otherwise. *)
Theorem flow_cross_cell_draws (R : Random) (w : world R) (cl : list Z)
    (F : matrix) (i j : nat) (ci cj : Z) :
  i <> j -> cl !! i = Some ci -> cl !! j = Some cj -> ci <> cj ->
  let p := (rng_random R (w_rng w)).1 in
  exists v,
    draws (run R (flow_cell cl i j F) w) =
    if Qltb p float_0_05 then [DrawFloat p; DrawInt 120 220 v]
    else [DrawFloat p; DrawInt 5 80 v].
Proof.
  intros Hne Hci Hcj Hdiff. unfold flow_cell.
  destruct (Nat.eqb_spec i j) as [|_]; [contradiction|].
  run_getitems.
  destruct (Z.eqb_spec ci cj) as [|_]; [contradiction|].
  rewrite run_random_bind.
  destruct (rng_random R (w_rng w)) as [p g]. simpl fst.
  destruct (Qltb p float_0_05).
  - rewrite run_randint_bind by lia.
    destruct (rng_randint R 120 220 _) as [v g']. exists v.
    simpl. rewrite draws_setitem2. reflexivity.
  - rewrite run_randint_bind by lia.
    destruct (rng_randint R 5 80 _) as [v g']. exists v.
    simpl. rewrite draws_setitem2. reflexivity.
Qed.

Lemma flow_cross_cell_draws_witness :
  let w0 := World (R := cpython) (Mt19937.seed 0) ∅ EmptyString in
  let p := (rng_random cpython (w_rng w0)).1 in
  exists v,
    draws (run cpython (flow_cell [0; 0; 1; 1] 0 2 (zeros 4)) w0) =
    if Qltb p float_0_05 then [DrawFloat p; DrawInt 120 220 v]
    else [DrawFloat p; DrawInt 5 80 v].
Proof.
  apply (flow_cross_cell_draws cpython _ [0; 0; 1; 1] (zeros 4) 0 2 0 1);
    [lia | reflexivity | reflexivity | lia].
Defined.

(** C3 as stated fails on the common branch: with CPython's generator
    seeded with 0, the probability drawn for the entry [(0, 2)] of four
    locations in two clusters is not below 0.05, and the entry costs two
    draws, not one. *)
Lemma flow_common_branch_two_draws :
  let w0 := World (R := cpython) (Mt19937.seed 0) ∅ EmptyString in
  let o := run cpython (flow_cell [0; 0; 1; 1] 0 2 (zeros 4)) w0 in
  Qltb (rng_random cpython (w_rng w0)).1 float_0_05 = false /\
  draws o = [DrawFloat (7605875871743422 # 9007199254740992);
             DrawInt 5 80 58] /\
  length (draws o) <> 1%nat.
Proof. vm_compute. repeat split; congruence. Qed.

Lemma cell_lt (n : nat) (M : matrix) (i j : nat) (v : Z) :
  square n M -> cell M i j = Some v -> (i < n)%nat /\ (j < n)%nat.
Proof.
  intros [Hlen Hrows] Hv. unfold cell in Hv.
  destruct (M !! i) as [row|] eqn:Hrow; [|discriminate].
  split.
  - apply lookup_lt_Some in Hrow. lia.
  - apply lookup_lt_Some in Hv. rewrite (Hrows i row Hrow) in Hv. exact Hv.
Qed.

Lemma distance_ok_nonneg (n clusters : Z) (i j : nat) (d : Z) :
  (i < Z.to_nat n)%nat -> (j < Z.to_nat n)%nat ->
  distance_ok (cluster_ids n clusters) i j d -> 0 <= d.
Proof.
  intros Hi Hj [Hdiag Hoff].
  destruct (decide (i = j)) as [Heq|Hne]; [rewrite Hdiag by exact Heq; lia|].
  destruct (Hoff Hne _ _ (cluster_ids_lookup n clusters i Hi)
                 (cluster_ids_lookup n clusters j Hj)) as [Hsame Hdiff].
  destruct (decide (Z.of_nat i * clusters / n = Z.of_nat j * clusters / n))
    as [He|He]; [specialize (Hsame He)|specialize (Hdiff He)]; lia.
Qed.

Lemma flow_ok_nonneg (n clusters : Z) (i j : nat) (f : Z) :
  (i < Z.to_nat n)%nat -> (j < Z.to_nat n)%nat ->
  flow_ok (cluster_ids n clusters) i j f -> 0 <= f.
Proof.
  intros Hi Hj [Hdiag Hoff].
  destruct (decide (i = j)) as [Heq|Hne]; [rewrite Hdiag by exact Heq; lia|].
  destruct (Hoff Hne _ _ (cluster_ids_lookup n clusters i Hi)
                 (cluster_ids_lookup n clusters j Hj)) as [Hsame Hdiff].
  destruct (decide (Z.of_nat i * clusters / n = Z.of_nat j * clusters / n))
    as [He|He]; [specialize (Hsame He)|specialize (Hdiff He)]; lia.
Qed.

(** C4: for valid input both matrices have [size] rows of [size] entries,
    no entry is negative, and both diagonals are zero. *)
Theorem generate_shape (R : Random) (n clusters sd : Z) (w : world R) :
  lawful R -> 1 <= n -> 1 <= clusters ->
  exists D F,
    result (run R (generate n clusters sd) w) = inr (D, F) /\
    length D = Z.to_nat n /\ length F = Z.to_nat n /\
    (forall i row, D !! i = Some row -> length row = Z.to_nat n) /\
    (forall i row, F !! i = Some row -> length row = Z.to_nat n) /\
    (forall i j v, cell D i j = Some v -> 0 <= v) /\
    (forall i j v, cell F i j = Some v -> 0 <= v) /\
    (forall i, (i < Z.to_nat n)%nat ->
               cell D i i = Some 0 /\ cell F i i = Some 0).
Proof.
  intros HR _ _.
  destruct (generate_runs R n clusters sd w HR)
    as (D & F & Hrun & [HsqD HD] & [HsqF HF]).
  exists D, F. split; [exact Hrun|].
  split; [apply HsqD|]. split; [apply HsqF|].
  split; [apply HsqD|]. split; [apply HsqF|].
  split; [|split].
  - intros i j v Hv. destruct (cell_lt _ _ _ _ _ HsqD Hv) as [Hi Hj].
    destruct (HD i j Hi Hj) as (d & Hd & Hok).
    rewrite Hv in Hd. injection Hd as <-.
    apply (distance_ok_nonneg n clusters i j); assumption.
  - intros i j v Hv. destruct (cell_lt _ _ _ _ _ HsqF Hv) as [Hi Hj].
    destruct (HF i j Hi Hj) as (f & Hf & Hok).
    rewrite Hv in Hf. injection Hf as <-.
    apply (flow_ok_nonneg n clusters i j); assumption.
  - intros i Hi.
    destruct (HD i i Hi Hi) as (d & Hd & Hdiag & _).
    destruct (HF i i Hi Hi) as (f & Hf & Hdiag' & _).
    rewrite Hd, Hf, (Hdiag eq_refl), (Hdiag' eq_refl). auto.
Qed.

Lemma generate_shape_witness :
  exists D F,
    result (run cpython (generate 4 2 0) w_init) = inr (D, F) /\
    length D = Z.to_nat 4 /\ length F = Z.to_nat 4 /\
    (forall i row, D !! i = Some row -> length row = Z.to_nat 4) /\
    (forall i row, F !! i = Some row -> length row = Z.to_nat 4) /\
    (forall i j v, cell D i j = Some v -> 0 <= v) /\
    (forall i j v, cell F i j = Some v -> 0 <= v) /\
    (forall i, (i < Z.to_nat 4)%nat ->
               cell D i i = Some 0 /\ cell F i i = Some 0).
Proof. apply generate_shape; [exact cpython_lawful | lia | lia]. Defined.

(** C5: for valid input the list built at line 13 has one id per
    location, the id of location [i] is the floor of [i * clusters / size],
    ids never decrease along the list, and every id lies in
    [0 .. clusters-1]. *)
Theorem cluster_of_partition (n clusters : Z) :
  1 <= n -> 1 <= clusters ->
  exists cl,
    cluster_of n clusters = Ret cl /\
    length cl = Z.to_nat n /\
    (forall i ci, cl !! i = Some ci ->
       ci = Z.of_nat i * clusters / n /\
       ci * n <= Z.of_nat i * clusters < (ci + 1) * n /\
       0 <= ci <= clusters - 1) /\
    (forall i j ci cj, (i <= j)%nat -> cl !! i = Some ci -> cl !! j = Some cj ->
       ci <= cj).
Proof.
  intros Hn Hc. exists (cluster_ids n clusters).
  split; [apply cluster_of_ret|]. split; [apply cluster_ids_length|].
  assert (Hval : forall i ci, cluster_ids n clusters !! i = Some ci ->
            ci = Z.of_nat i * clusters / n /\ Z.of_nat i < n).
  { intros i ci Hci. pose proof (cluster_ids_lt _ _ _ _ Hci) as Hi.
    rewrite cluster_ids_lookup in Hci by exact Hi.
    injection Hci as <-. split; [reflexivity|lia]. }
  split.
  - intros i ci Hci. destruct (Hval i ci Hci) as [-> Hi].
    split; [reflexivity|].
    pose proof (Z.mul_div_le (Z.of_nat i * clusters) n ltac:(lia)).
    pose proof (Z.mul_succ_div_gt (Z.of_nat i * clusters) n ltac:(lia)).
    assert (0 <= Z.of_nat i * clusters / n) by (apply Z.div_pos; nia).
    assert (Z.of_nat i * clusters / n < clusters)
      by (apply Z.div_lt_upper_bound; nia).
    lia.
  - intros i j ci cj Hij Hci Hcj.
    destruct (Hval i ci Hci) as [-> _]. destruct (Hval j cj Hcj) as [-> _].
    apply Z.div_le_mono; nia.
Qed.

Lemma cluster_of_partition_witness :
  exists cl,
    cluster_of 4 2 = Ret cl /\
    length cl = Z.to_nat 4 /\
    (forall i ci, cl !! i = Some ci ->
       ci = Z.of_nat i * 2 / 4 /\
       ci * 4 <= Z.of_nat i * 2 < (ci + 1) * 4 /\
       0 <= ci <= 2 - 1) /\
    (forall i j ci cj, (i <= j)%nat -> cl !! i = Some ci -> cl !! j = Some cj ->
       ci <= cj).
Proof. apply cluster_of_partition; lia. Defined.

(** C7, as the code has it: for [generate(4, 2, 0)] the cluster
    assignment is [[0, 0, 1, 1]], any two calls return the same matrices,
    [distance[0][0]] is 0, [distance[0][2]] lies in [40..59] (30 plus 10
    for one cluster apart plus a draw from [0..19]), [flow[0][1]] lies in
    [80..200] and [flow[0][2]] in [5..80] or [120..220]. *)
Theorem scenario_4_2_0 (R : Random) (w : world R) :
  lawful R ->
  cluster_of 4 2 = Ret [0; 0; 1; 1] /\
  exists D F,
    result (run R (generate 4 2 0) w) = inr (D, F) /\
    (forall w', result (run R (generate 4 2 0) w') = inr (D, F)) /\
    cell D 0 0 = Some 0 /\
    (exists d, cell D 0 2 = Some d /\ 40 <= d <= 59) /\
    (exists f, cell F 0 1 = Some f /\ 80 <= f <= 200) /\
    (exists f, cell F 0 2 = Some f /\ (5 <= f <= 80 \/ 120 <= f <= 220)).
Proof.
  intros HR. split; [reflexivity|].
  destruct (generate_runs R 4 2 0 w HR) as (D & F & Hrun & [_ HD] & [_ HF]).
  change (cluster_ids 4 2) with [0; 0; 1; 1] in HD, HF.
  change (Z.to_nat 4) with 4%nat in HD, HF.
  exists D, F. split; [exact Hrun|]. split.
  { intros w'. destruct (run_generate_any_world R 4 2 0 w w') as [<- _].
    exact Hrun. }
  destruct (HD 0 0)%nat as (d00 & Hd00 & Hdiag & _); [lia|lia|].
  destruct (HD 0 2)%nat as (d02 & Hd02 & _ & Hoff02); [lia|lia|].
  destruct (HF 0 1)%nat as (f01 & Hf01 & _ & Hoff01); [lia|lia|].
  destruct (HF 0 2)%nat as (f02 & Hf02 & _ & Hoff02'); [lia|lia|].
  split; [rewrite Hd00, (Hdiag eq_refl); reflexivity|].
  split; [exists d02; split; [exact Hd02|]|split].
  - destruct (Hoff02 ltac:(lia) 0 1 eq_refl eq_refl) as [_ Hdiff].
    specialize (Hdiff ltac:(lia)). simpl in Hdiff. lia.
  - exists f01. split; [exact Hf01|].
    destruct (Hoff01 ltac:(lia) 0 0 eq_refl eq_refl) as [Hsame _].
    apply Hsame. reflexivity.
  - exists f02. split; [exact Hf02|].
    destruct (Hoff02' ltac:(lia) 0 1 eq_refl eq_refl) as [_ Hdiff].
    apply Hdiff. lia.
Qed.

Lemma scenario_4_2_0_witness :
  cluster_of 4 2 = Ret [0; 0; 1; 1] /\
  exists D F,
    result (run cpython (generate 4 2 0) w_init) = inr (D, F) /\
    (forall w', result (run cpython (generate 4 2 0) w') = inr (D, F)) /\
    cell D 0 0 = Some 0 /\
    (exists d, cell D 0 2 = Some d /\ 40 <= d <= 59) /\
    (exists f, cell F 0 1 = Some f /\ 80 <= f <= 200) /\
    (exists f, cell F 0 2 = Some f /\ (5 <= f <= 80 \/ 120 <= f <= 220)).
Proof. apply scenario_4_2_0. exact cpython_lawful. Defined.

(** C7 as stated fails on [distance[0][2]]: run on CPython's generator,
    [generate(4, 2, 0)] returns the matrices below, where that entry is 53,
    outside [30..49]. *)
Lemma scenario_distance_0_2 :
  result (run cpython (generate 4 2 0) w_init) =
    inr ([[0; 7; 53; 41]; [5; 0; 56; 55]; [52; 49; 0; 8]; [51; 58; 4; 0]],
         [[0; 144; 22; 37]; [196; 0; 23; 14]; [47; 17; 0; 125];
          [31; 66; 136; 0]]) /\
  ~ (exists D F d,
       result (run cpython (generate 4 2 0) w_init) = inr (D, F) /\
       cell D 0 2 = Some d /\ 30 <= d <= 49).
Proof.
  assert (Hrun : result (run cpython (generate 4 2 0) w_init) =
    inr ([[0; 7; 53; 41]; [5; 0; 56; 55]; [52; 49; 0; 8]; [51; 58; 4; 0]],
         [[0; 144; 22; 37]; [196; 0; 23; 14]; [47; 17; 0; 125];
          [31; 66; 136; 0]])) by (vm_compute; reflexivity).
  split; [exact Hrun|].
  intros (D & F & d & HDF & Hd & Hrange).
  rewrite Hrun in HDF. injection HDF as <- <-.
  vm_compute in Hd. injection Hd as <-. lia.
Qed.

(** C8, as the code has it: for valid input [generate] raises nothing,
    leaves the file system as it was and prints nothing; what it does
    change is the generator of the [random] module: it reseeds it with
    [seed] and advances it by its draws, so that the generator ends in
    the state that these draws lead to from the freshly seeded state, a
    state that depends on [(size, clusters, seed)] alone. *)
Theorem generate_effects (R : Random) (n clusters sd : Z) (w : world R) :
  lawful R -> 1 <= n -> 1 <= clusters ->
  (exists D F, result (run R (generate n clusters sd) w) = inr (D, F)) /\
  w_fs (final (run R (generate n clusters sd) w)) = w_fs w /\
  w_stdout (final (run R (generate n clusters sd) w)) = w_stdout w /\
  drawn_from R (rng_seed R sd)
             (draws (run R (generate n clusters sd) w))
             (w_rng (final (run R (generate n clusters sd) w))) /\
  forall w', w_rng (final (run R (generate n clusters sd) w)) =
             w_rng (final (run R (generate n clusters sd) w')).
Proof.
  intros HR _ _. split; [|split; [|split; [|split]]].
  - destruct (generate_runs R n clusters sd w HR) as (D & F & Hrun & _). eauto.
  - apply run_silent, generate_silent.
  - apply run_silent, generate_silent.
  - apply generate_drawn_from.
  - intros w'. apply run_generate_any_world.
Qed.

Lemma generate_effects_witness :
  (exists D F, result (run cpython (generate 4 2 0) w_init) = inr (D, F)) /\
  w_fs (final (run cpython (generate 4 2 0) w_init)) = w_fs w_init /\
  w_stdout (final (run cpython (generate 4 2 0) w_init)) = w_stdout w_init /\
  drawn_from cpython (rng_seed cpython 0)
             (draws (run cpython (generate 4 2 0) w_init))
             (w_rng (final (run cpython (generate 4 2 0) w_init))) /\
  forall w', w_rng (final (run cpython (generate 4 2 0) w_init)) =
             w_rng (final (run cpython (generate 4 2 0) w')).
Proof. apply generate_effects; [exact cpython_lawful | lia | lia]. Defined.

(** C8 as stated fails on the generator: in a process whose next
    [random.random()] would have been 1210245519433057 / 2^53, a call of
    [generate(1, 1, 0)], which makes no draw at all, leaves a generator
    whose next [random.random()] is 7605875871743422 / 2^53. *)
Lemma generate_reseeds_generator :
  let o := run cpython (generate 1 1 0) w_init in
  draws o = [] /\
  (rng_random cpython (w_rng w_init)).1 =
    1210245519433057 # 9007199254740992 /\
  (rng_random cpython (w_rng (final o))).1 =
    7605875871743422 # 9007199254740992 /\
  final o <> w_init.
Proof.
  intros o.
  assert (H1 : (rng_random cpython (w_rng w_init)).1 =
               1210245519433057 # 9007199254740992)
    by (vm_compute; reflexivity).
  assert (H2 : (rng_random cpython (w_rng (final o))).1 =
               7605875871743422 # 9007199254740992)
    by (vm_compute; reflexivity).
  split; [vm_compute; reflexivity|]. split; [exact H1|]. split; [exact H2|].
  intros Heq. rewrite Heq, H1 in H2. discriminate H2.
Qed.

(** C9: for valid input every distance between two clusters is at least
    40 and every off-diagonal distance inside a cluster is at most 10, so
    in one generated matrix every distance between clusters exceeds every
    off-diagonal distance inside a cluster. *)
Theorem generate_separation (R : Random) (n clusters sd : Z) (w : world R) :
  lawful R -> 1 <= n -> 1 <= clusters ->
  exists cl D F,
    cluster_of n clusters = Ret cl /\
    result (run R (generate n clusters sd) w) = inr (D, F) /\
    (forall i j ci cj, cl !! i = Some ci -> cl !! j = Some cj -> ci <> cj ->
       exists d, cell D i j = Some d /\ 40 <= d) /\
    (forall i j ci cj, cl !! i = Some ci -> cl !! j = Some cj -> i <> j ->
       ci = cj -> exists d, cell D i j = Some d /\ d <= 10) /\
    (forall i j ci cj i' j' ci' cj' d d',
       cl !! i = Some ci -> cl !! j = Some cj -> ci <> cj ->
       cl !! i' = Some ci' -> cl !! j' = Some cj' -> i' <> j' -> ci' = cj' ->
       cell D i j = Some d -> cell D i' j' = Some d' -> d' < d).
Proof.
  intros HR _ _.
  destruct (generate_runs R n clusters sd w HR) as (D & F & Hrun & [_ HD] & _).
  exists (cluster_ids n clusters), D, F.
  split; [apply cluster_of_ret|]. split; [exact Hrun|].
  assert (Hcross : forall i j ci cj,
            cluster_ids n clusters !! i = Some ci ->
            cluster_ids n clusters !! j = Some cj -> ci <> cj ->
            exists d, cell D i j = Some d /\ 40 <= d).
  { intros i j ci cj Hci Hcj Hdiff.
    pose proof (cluster_ids_lt _ _ _ _ Hci) as Hi.
    pose proof (cluster_ids_lt _ _ _ _ Hcj) as Hj.
    destruct (HD i j Hi Hj) as (d & Hd & _ & Hoff).
    assert (Hne : i <> j) by (intros ->; congruence).
    destruct (Hoff Hne ci cj Hci Hcj) as [_ Hr]. specialize (Hr Hdiff).
    exists d. split; [exact Hd|lia]. }
  assert (Hwithin : forall i j ci cj,
            cluster_ids n clusters !! i = Some ci ->
            cluster_ids n clusters !! j = Some cj -> i <> j -> ci = cj ->
            exists d, cell D i j = Some d /\ d <= 10).
  { intros i j ci cj Hci Hcj Hne Hsame.
    pose proof (cluster_ids_lt _ _ _ _ Hci) as Hi.
    pose proof (cluster_ids_lt _ _ _ _ Hcj) as Hj.
    destruct (HD i j Hi Hj) as (d & Hd & _ & Hoff).
    destruct (Hoff Hne ci cj Hci Hcj) as [Hr _]. specialize (Hr Hsame).
    exists d. split; [exact Hd|lia]. }
  split; [exact Hcross|]. split; [exact Hwithin|].
  intros i j ci cj i' j' ci' cj' d d' Hci Hcj Hdiff Hci' Hcj' Hne' Hsame Hd Hd'.
  destruct (Hcross i j ci cj Hci Hcj Hdiff) as (x & Hx & Hx40).
  destruct (Hwithin i' j' ci' cj' Hci' Hcj' Hne' Hsame) as (y & Hy & Hy10).
  rewrite Hd in Hx. rewrite Hd' in Hy.
  injection Hx as <-. injection Hy as <-. lia.
Qed.

Lemma generate_separation_witness :
  exists cl D F,
    cluster_of 4 2 = Ret cl /\
    result (run cpython (generate 4 2 0) w_init) = inr (D, F) /\
    (forall i j ci cj, cl !! i = Some ci -> cl !! j = Some cj -> ci <> cj ->
       exists d, cell D i j = Some d /\ 40 <= d) /\
    (forall i j ci cj, cl !! i = Some ci -> cl !! j = Some cj -> i <> j ->
       ci = cj -> exists d, cell D i j = Some d /\ d <= 10) /\
    (forall i j ci cj i' j' ci' cj' d d',
       cl !! i = Some ci -> cl !! j = Some cj -> ci <> cj ->
       cl !! i' = Some ci' -> cl !! j' = Some cj' -> i' <> j' -> ci' = cj' ->
       cell D i j = Some d -> cell D i' j' = Some d' -> d' < d).
Proof. apply generate_separation; [exact cpython_lawful | lia | lia]. Defined.

Lemma cluster_ids_zero (n : Z) (i : nat) (ci : Z) :
  cluster_ids n 0 !! i = Some ci -> ci = 0.
Proof.
  intros Hci. pose proof (cluster_ids_lt _ _ _ _ Hci) as Hi.
  rewrite cluster_ids_lookup in Hci by exact Hi.
  injection Hci as <-. rewrite Z.mul_0_r. apply Zdiv_0_l.
Qed.

(** C10: [generate] also returns on the inputs the specification leaves
    open.  With [size = 0] nothing is divided and both matrices are empty;
    with [clusters = 0] and [size >= 1] every location is in cluster 0,
    every off-diagonal distance lies in [1..10] and every off-diagonal
    flow in [80..200]. *)
Theorem generate_edge_cases (R : Random) (sd : Z) (w : world R) :
  lawful R ->
  (forall clusters,
     cluster_of 0 clusters = Ret [] /\
     result (run R (generate 0 clusters sd) w) = inr ([], [])) /\
  (forall n, 1 <= n ->
     exists cl D F,
       cluster_of n 0 = Ret cl /\ length cl = Z.to_nat n /\
       (forall i ci, cl !! i = Some ci -> ci = 0) /\
       result (run R (generate n 0 sd) w) = inr (D, F) /\
       forall i j, (i < Z.to_nat n)%nat -> (j < Z.to_nat n)%nat -> i <> j ->
         exists d f, cell D i j = Some d /\ cell F i j = Some f /\
                     1 <= d <= 10 /\ 80 <= f <= 200).
Proof.
  intros HR. split.
  - intros clusters. split; reflexivity.
  - intros n _.
    destruct (generate_runs R n 0 sd w HR) as (D & F & Hrun & [_ HD] & [_ HF]).
    exists (cluster_ids n 0), D, F.
    split; [apply cluster_of_ret|]. split; [apply cluster_ids_length|].
    split; [apply cluster_ids_zero|]. split; [exact Hrun|].
    intros i j Hi Hj Hne.
    destruct (HD i j Hi Hj) as (d & Hd & _ & Hdoff).
    destruct (HF i j Hi Hj) as (f & Hf & _ & Hfoff).
    pose proof (cluster_ids_lookup n 0 i Hi) as Hci.
    pose proof (cluster_ids_lookup n 0 j Hj) as Hcj.
    assert (Hsame : Z.of_nat i * 0 / n = Z.of_nat j * 0 / n).
    { rewrite (cluster_ids_zero n i _ Hci), (cluster_ids_zero n j _ Hcj).
      reflexivity. }
    destruct (Hdoff Hne _ _ Hci Hcj) as [Hdr _].
    destruct (Hfoff Hne _ _ Hci Hcj) as [Hfr _].
    exists d, f. auto.
Qed.

Lemma generate_edge_cases_witness :
  result (run cpython (generate 0 5 42) w_init) = inr ([], []) /\
  exists cl D F,
    cluster_of 3 0 = Ret cl /\ length cl = Z.to_nat 3 /\
    (forall i ci, cl !! i = Some ci -> ci = 0) /\
    result (run cpython (generate 3 0 42) w_init) = inr (D, F) /\
    forall i j, (i < Z.to_nat 3)%nat -> (j < Z.to_nat 3)%nat -> i <> j ->
      exists d f, cell D i j = Some d /\ cell F i j = Some f /\
                  1 <= d <= 10 /\ 80 <= f <= 200.
Proof.
  destruct (generate_edge_cases cpython 42 w_init cpython_lawful)
    as [Hzero Hflat].
  split; [apply Hzero|apply Hflat; lia].
Defined.

(** ** Strings *)

Lemma string_app_nil_r (s : string) : (s ++ "")%string = s.
Proof.
  induction s as [|a s IH]; [reflexivity|].
  change (String a (s ++ "")%string = String a s). rewrite IH. reflexivity.
Qed.

Lemma string_app_assoc (s t u : string) :
  ((s ++ t) ++ u)%string = (s ++ (t ++ u))%string.
Proof.
  induction s as [|a s IH]; [reflexivity|].
  change (String a ((s ++ t) ++ u)%string = String a (s ++ (t ++ u))%string).
  rewrite IH. reflexivity.
Qed.

Lemma lacks_app (c : ascii) (s t : string) :
  lacks c s -> lacks c t -> lacks c (s ++ t)%string.
Proof.
  intros Hs Ht. induction s as [|a s IH]; [exact Ht|].
  destruct Hs as [Ha Hs]. split; [exact Ha|]. apply IH, Hs.
Qed.

Lemma split_on_lacks (c : ascii) (s : string) :
  lacks c s -> split_on c s = [s].
Proof.
  induction s as [|a s IH]; intros Hs; [reflexivity|].
  destruct Hs as [Ha Hs]. simpl.
  destruct (Ascii.eqb_spec a c) as [|_]; [contradiction|].
  rewrite IH by exact Hs. reflexivity.
Qed.

Lemma split_on_app (c : ascii) (s t : string) :
  lacks c s ->
  split_on c (s ++ String c t)%string = s :: split_on c t.
Proof.
  induction s as [|a s IH]; intros Hs.
  - change (split_on c (String c t) = "" :: split_on c t)%string.
    simpl. rewrite Ascii.eqb_refl. reflexivity.
  - destruct Hs as [Ha Hs].
    change (split_on c (String a (s ++ String c t)%string)
            = String a s :: split_on c t).
    simpl. destruct (Ascii.eqb_spec a c) as [|_]; [contradiction|].
    rewrite IH by exact Hs. reflexivity.
Qed.

(** Splitting a text of newline-ended lines gives the lines back, and an
    empty string after the last newline. *)
Lemma split_on_lines (c : ascii) (ls : list string) :
  Forall (lacks c) ls ->
  split_on c (text_of ((fun l => l ++ String c "")%string <$> ls))
  = ls ++ [EmptyString].
Proof.
  induction 1 as [|l ls Hl Hls IH]; [reflexivity|].
  change (split_on c ((l ++ String c "") ++
            text_of ((fun l => l ++ String c "")%string <$> ls))%string
          = l :: (ls ++ [EmptyString])).
  rewrite string_app_assoc.
  change (String c "" ++ ?t)%string with (String c t).
  rewrite split_on_app by exact Hl. rewrite IH. reflexivity.
Qed.

Lemma split_on_join (c : ascii) (ws : list string) :
  ws <> [] -> Forall (lacks c) ws ->
  split_on c (join (String c "") ws) = ws.
Proof.
  intros Hne Hws. induction Hws as [|w ws Hw Hws IH]; [contradiction|].
  destruct ws as [|w' ws].
  - apply split_on_lacks, Hw.
  - change (split_on c (w ++ String c (join (String c "") (w' :: ws)))%string
            = w :: w' :: ws).
    rewrite split_on_app by exact Hw. rewrite IH by discriminate.
    reflexivity.
Qed.

Lemma lacks_join (c : ascii) (sep : string) (ws : list string) :
  lacks c sep -> Forall (lacks c) ws -> lacks c (join sep ws).
Proof.
  intros Hsep Hws. induction Hws as [|w ws Hw Hws IH]; [exact I|].
  destruct ws as [|w' ws]; [exact Hw|].
  change (lacks c (w ++ sep ++ join sep (w' :: ws))%string).
  apply lacks_app; [exact Hw|]. apply lacks_app; [exact Hsep|exact IH].
Qed.

(** [str] writes digits, after a minus sign for a negative number. *)
Lemma lacks_uint (c : ascii) (d : Decimal.uint) :
  lacks c "0123456789" -> lacks c (NilEmpty.string_of_uint d).
Proof.
  intros Hc. simpl in Hc.
  induction d; simpl; intuition congruence.
Qed.

Lemma lacks_str (c : ascii) (x : Z) :
  lacks c "-0123456789" -> lacks c (str x).
Proof.
  intros [Hminus Hdigits]. unfold str.
  assert (Hu : forall d, lacks c (NilZero.string_of_uint d)).
  { intros d. pose proof (lacks_uint c d Hdigits) as Hd.
    destruct d; try exact Hd. simpl. simpl in Hdigits. intuition congruence. }
  destruct (Z.to_int x) as [d|d]; simpl.
  - apply Hu.
  - split; [congruence|apply Hu].
Qed.

Lemma parse_int_str (x : Z) : parse_int (str x) = Some x.
Proof.
  unfold parse_int, str. rewrite NilZero.isi.
  - simpl. rewrite DecimalZ.of_to. reflexivity.
  - destruct x; simpl; try discriminate.
    intros [= H]. exact (DecimalPos.Unsigned.to_uint_nonnil _ H).
  - destruct x; simpl; try discriminate.
    intros [= H]. exact (DecimalPos.Unsigned.to_uint_nonnil _ H).
Qed.

Lemma lacks_row_text (row : list Z) : lacks (ascii_of_nat 10) (row_text row).
Proof.
  unfold row_text. apply lacks_join.
  - simpl. split; [discriminate|exact I].
  - apply Forall_fmap, Forall_true. intros x. apply lacks_str.
    simpl. repeat split; discriminate.
Qed.

Lemma parse_row_text (row : list Z) :
  row <> [] -> parse_row (length row) (row_text row) = Some row.
Proof.
  intros Hne. unfold parse_row, row_text.
  rewrite (split_on_join " " (str <$> row)).
  - rewrite (mapM_fmap_Some parse_int str row parse_int_str). simpl.
    rewrite decide_True by reflexivity. reflexivity.
  - destruct row; [contradiction|discriminate].
  - apply Forall_fmap, Forall_true. intros x. apply lacks_str.
    simpl. repeat split; discriminate.
Qed.

Lemma parse_rows_text (k : nat) (M : matrix) :
  square k M -> mapM (parse_row k) (row_text <$> M) = Some M.
Proof.
  intros [Hlen Hrows]. apply mapM_fmap_Forall_Some.
  apply Forall_lookup. intros i row Hrow.
  pose proof (Hrows i row Hrow) as Hk.
  rewrite <- Hk. apply parse_row_text.
  intros ->. apply lookup_lt_Some in Hrow. simpl in Hk. lia.
Qed.

Lemma instance_text_lines (n : Z) (D F : matrix) :
  instance_text n D F =
  text_of ((fun l => l ++ String (ascii_of_nat 10) "")%string <$>
             (str n :: (row_text <$> D) ++ (row_text <$> F))).
Proof.
  unfold instance_text. rewrite fmap_cons, fmap_app, <- !list_fmap_compose.
  reflexivity.
Qed.

(** Reading back the text of an instance gives the instance. *)
Lemma parse_instance_text (n : Z) (D F : matrix) :
  square (Z.to_nat n) D -> square (Z.to_nat n) F ->
  parse_instance (instance_text n D F) = Some (n, D, F).
Proof.
  intros HD HF. unfold parse_instance.
  rewrite instance_text_lines, split_on_lines.
  2:{ constructor.
      - apply lacks_str. simpl. repeat split; discriminate.
      - apply Forall_app. split; apply Forall_fmap, Forall_true;
          intros row; apply lacks_row_text. }
  cbn [app]. rewrite parse_int_str. cbn [mbind option_bind].
  set (k := Z.to_nat n) in *.
  assert (HlD : k = length (row_text <$> D))
    by (rewrite length_fmap; symmetry; apply HD).
  assert (HlF : k = length (row_text <$> F))
    by (rewrite length_fmap; symmetry; apply HF).
  rewrite <- app_assoc.
  rewrite <- (drop_drop _ k k).
  rewrite (take_app_length' (row_text <$> D) _ k HlD).
  rewrite (drop_app_length' (row_text <$> D) _ k HlD).
  rewrite (take_app_length' (row_text <$> F) _ k HlF).
  rewrite (drop_app_length' (row_text <$> F) _ k HlF).
  rewrite (parse_rows_text k D HD). cbn [mbind option_bind].
  rewrite (parse_rows_text k F HF). cbn [mbind option_bind].
  rewrite decide_True; [reflexivity|].
  split; [reflexivity|split; [apply HD|apply HF]].
Qed.

(** ** What [main] writes *)

Lemma run_open_bind (R : Random) {B} (path file : string)
    (f : target -> prog B) (w : world R) :
  fs_open (w_fs w) path = Some (Regular file) ->
  run R (open_w path ≫= f) w =
  run R (f (Regular file))
      (World (w_rng w) (fs_truncate file (w_fs w)) (w_stdout w)).
Proof.
  intros Hopen. unfold open_w, mbind, prog_bind. simpl. rewrite Hopen.
  reflexivity.
Qed.

Lemma run_open_refused (R : Random) {B} (path : string)
    (f : target -> prog B) (w : world R) :
  fs_open (w_fs w) path = None ->
  run R (open_w path ≫= f) w = Outcome (inl OSError) w [].
Proof.
  intros Hopen. unfold open_w, mbind, prog_bind. simpl. rewrite Hopen.
  reflexivity.
Qed.

Lemma run_write_bind (R : Random) {B} (file s : string) (f : unit -> prog B)
    (w : world R) :
  run R (write (Regular file) s ≫= f) w =
  run R (f tt) (World (w_rng w) (fs_append file s (w_fs w)) (w_stdout w)).
Proof. reflexivity. Qed.

Lemma run_write_rows_seq (R : Random) (file : string) (M : matrix)
    (a m : nat) (w : world R) (old : string) :
  (a + m <= length M)%nat ->
  fs_files (w_fs w) !! file = Some old ->
  run R (for_ (seq a m)
              (fun i _ => row ← getitem M i;
                          write (Regular file) (row_line row)) tt) w =
  Outcome (inr tt)
          (World (w_rng w)
                 (Filesystem
                    (<[file := (old ++ text_of (row_line <$> take m (drop a M)))%string]>
                       (fs_files (w_fs w)))
                    (fs_open (w_fs w)))
                 (w_stdout w))
          [].
Proof.
  revert a w old. induction m as [|m IH]; intros a w old Hlen Hold.
  - simpl. rewrite string_app_nil_r, insert_id by exact Hold.
    destruct w as [g [files op] out]; reflexivity.
  - destruct (lookup_lt_is_Some_2 M a) as [row Hrow]; [lia|].
    cbn [seq for_]. rewrite (getitem_ret M a row Hrow), bind_ret_l.
    rewrite run_write_bind.
    rewrite (IH (S a) _ (old ++ row_line row)%string); [|lia|].
    2:{ cbn [w_fs fs_append fs_files]. rewrite Hold. apply lookup_insert_eq. }
    cbn [w_rng w_fs w_stdout fs_append fs_files fs_open].
    rewrite insert_insert_eq.
    rewrite (drop_S M row a Hrow). cbn [take fmap list_fmap text_of foldr].
    rewrite string_app_assoc. reflexivity.
Qed.

Lemma run_write_rows (R : Random) (file : string) (n : Z) (M : matrix)
    (w : world R) (old : string) :
  length M = Z.to_nat n ->
  fs_files (w_fs w) !! file = Some old ->
  run R (write_rows (Regular file) n M) w =
  Outcome (inr tt)
          (World (w_rng w)
                 (Filesystem
                    (<[file := (old ++ text_of (row_line <$> M))%string]>
                       (fs_files (w_fs w)))
                    (fs_open (w_fs w)))
                 (w_stdout w))
          [].
Proof.
  intros Hlen Hold. unfold write_rows, range.
  rewrite (run_write_rows_seq R file M 0 (Z.to_nat n) w old) by (lia || exact Hold).
  rewrite drop_0, take_ge by lia. reflexivity.
Qed.

Lemma text_of_app (xs ys : list string) :
  text_of (xs ++ ys) = (text_of xs ++ text_of ys)%string.
Proof.
  induction xs as [|x xs IH]; [reflexivity|].
  change (x ++ text_of (xs ++ ys) = (x ++ text_of xs) ++ text_of ys)%string.
  rewrite IH, string_app_assoc. reflexivity.
Qed.

(** The whole outcome of [main] once [generate] has returned [(D, F)],
    when the output path opens a regular file. *)
Lemma run_main_outcome (R : Random) (n clusters sd : Z) (out file : string)
    (w : world R) (D F : matrix) :
  result (run R (generate n clusters sd) w) = inr (D, F) ->
  length D = Z.to_nat n -> length F = Z.to_nat n ->
  fs_open (w_fs w) out = Some (Regular file) ->
  run R (main n clusters sd out) w =
  Outcome (inr tt)
    (World (w_rng (final (run R (generate n clusters sd) w)))
           (Filesystem (<[file := instance_text n D F]> (fs_files (w_fs w)))
                       (fs_open (w_fs w)))
           ((w_stdout w ++
             "Wrote " ++ out ++ " n= " ++ str n ++ " clusters= " ++
             str clusters ++ " seed= " ++ str sd ++ newline)%string))
    (draws (run R (generate n clusters sd) w)).
Proof.
  intros Hrun HlD HlF Hopen.
  destruct (run_silent R (generate n clusters sd) w
              (generate_silent n clusters sd)) as [Hfs Hstdout].
  unfold main. rewrite run_bind, Hrun. cbv zeta beta iota.
  set (w1 := final (run R (generate n clusters sd) w)) in *.
  rewrite (run_open_bind R out file) by (rewrite Hfs; exact Hopen).
  rewrite run_write_bind.
  rewrite run_bind,
    (run_write_rows R file n D _ ("" ++ str n ++ newline)%string HlD)
    by (cbn [w_fs fs_append fs_truncate fs_files];
        rewrite !lookup_insert_eq; reflexivity).
  cbv zeta beta iota.
  cbn [result final draws w_fs w_rng w_stdout].
  rewrite run_bind,
    (run_write_rows R file n F _
       (("" ++ str n ++ newline) ++ text_of (row_line <$> D))%string HlF)
    by (cbn [w_fs fs_files]; apply lookup_insert_eq).
  cbv zeta beta iota.
  cbn [result final draws w_fs w_rng w_stdout fs_append fs_truncate
       fs_files fs_open run print].
  rewrite !insert_insert_eq, Hfs, Hstdout, !app_nil_r.
  f_equal. f_equal.
  - f_equal. f_equal. unfold instance_text.
    change (text_of (?x :: ?xs)) with (x ++ text_of xs)%string.
    change ("" ++ ?x)%string with x.
    rewrite text_of_app, !string_app_assoc. reflexivity.
  - f_equal. cbn [join]. rewrite !string_app_assoc. reflexivity.
Qed.

(** The outcome of [main] when the file system refuses the output path:
    [generate] has run, nothing else has happened. *)
Lemma run_main_refused (R : Random) (n clusters sd : Z) (out : string)
    (w : world R) (D F : matrix) :
  result (run R (generate n clusters sd) w) = inr (D, F) ->
  fs_open (w_fs w) out = None ->
  run R (main n clusters sd out) w =
  Outcome (inl OSError)
          (final (run R (generate n clusters sd) w))
          (draws (run R (generate n clusters sd) w)).
Proof.
  intros Hrun Hopen.
  destruct (run_silent R (generate n clusters sd) w
              (generate_silent n clusters sd)) as [Hfs _].
  unfold main. rewrite run_bind, Hrun. cbv zeta beta iota.
  rewrite run_open_refused by (rewrite Hfs; exact Hopen).
  cbn [result final draws]. rewrite app_nil_r. reflexivity.
Qed.

(** C6: for valid input, and an output path that the file system opens
    as a regular file, the file that [main] leaves behind is the size on
    line 1, then one line per row of the distance matrix, then one line
    per row of the flow matrix, integers separated by single spaces,
    every line ended by a newline and nothing else, whatever the file
    held before; no other file is changed; and reading that file gives
    back the size and both matrices as [generate] returned them. *)
Theorem main_writes_instance (R : Random) (n clusters sd : Z)
    (out file : string) (w : world R) :
  lawful R -> 1 <= n -> 1 <= clusters ->
  fs_open (w_fs w) out = Some (Regular file) ->
  exists D F,
    result (run R (generate n clusters sd) w) = inr (D, F) /\
    length D = Z.to_nat n /\ length F = Z.to_nat n /\
    result (run R (main n clusters sd out) w) = inr tt /\
    fs_files (w_fs (final (run R (main n clusters sd out) w))) !! file =
      Some (str n ++ newline ++
            text_of (row_line <$> D) ++ text_of (row_line <$> F))%string /\
    (forall other, other <> file ->
       fs_files (w_fs (final (run R (main n clusters sd out) w))) !! other =
       fs_files (w_fs w) !! other) /\
    parse_instance (str n ++ newline ++
                    text_of (row_line <$> D) ++ text_of (row_line <$> F))%string
      = Some (n, D, F).
Proof.
  intros HR _ _ Hopen.
  destruct (generate_runs R n clusters sd w HR)
    as (D & F & Hrun & [HsqD _] & [HsqF _]).
  pose proof (run_main_outcome R n clusters sd out file w D F Hrun
                (proj1 HsqD) (proj1 HsqF) Hopen) as Hmain.
  assert (Htext : (str n ++ newline ++
                   text_of (row_line <$> D) ++ text_of (row_line <$> F))%string
                  = instance_text n D F).
  { unfold instance_text.
    change (text_of (?x :: ?xs)) with (x ++ text_of xs)%string.
    rewrite text_of_app, string_app_assoc. reflexivity. }
  exists D, F. rewrite Htext, Hmain. cbn [result final w_fs fs_files].
  split; [exact Hrun|]. split; [apply HsqD|]. split; [apply HsqF|].
  split; [reflexivity|]. split; [apply lookup_insert_eq|].
  split; [intros other Hne; apply lookup_insert_ne; congruence|].
  apply parse_instance_text; assumption.
Qed.

Lemma main_writes_instance_witness :
  exists D F,
    result (run cpython (generate 4 2 0) w_init) = inr (D, F) /\
    length D = Z.to_nat 4 /\ length F = Z.to_nat 4 /\
    result (run cpython (main 4 2 0 "instance.txt") w_init) = inr tt /\
    fs_files (w_fs (final (run cpython (main 4 2 0 "instance.txt") w_init)))
      !! "instance.txt" =
      Some (str 4 ++ newline ++
            text_of (row_line <$> D) ++ text_of (row_line <$> F))%string /\
    (forall other, other <> "instance.txt" ->
       fs_files (w_fs (final (run cpython (main 4 2 0 "instance.txt") w_init)))
         !! other =
       fs_files (w_fs w_init) !! other) /\
    parse_instance (str 4 ++ newline ++
                    text_of (row_line <$> D) ++ text_of (row_line <$> F))%string
      = Some (4, D, F).
Proof.
  apply main_writes_instance; [exact cpython_lawful | lia | lia | reflexivity].
Defined.

(** ** Further properties of [generate] *)

(** X1: whatever integers [generate] is given, zero and negative ones
    included, it raises nothing and returns two square matrices of
    [max(size, 0)] rows; for [size <= 0] both are empty and no draw is
    made. *)
Theorem generate_any_integers (R : Random) (n clusters sd : Z) (w : world R) :
  lawful R ->
  exists D F,
    result (run R (generate n clusters sd) w) = inr (D, F) /\
    square (Z.to_nat n) D /\ square (Z.to_nat n) F /\
    (n <= 0 -> D = [] /\ F = [] /\
               draws (run R (generate n clusters sd) w) = []).
Proof.
  intros HR.
  destruct (generate_runs R n clusters sd w HR)
    as (D & F & Hrun & [HsqD _] & [HsqF _]).
  exists D, F. split; [exact Hrun|]. split; [exact HsqD|].
  split; [exact HsqF|]. intros Hn.
  destruct HsqD as [HlD _]. destruct HsqF as [HlF _].
  replace (Z.to_nat n) with 0%nat in HlD, HlF by lia.
  split; [apply nil_length_inv, HlD|]. split; [apply nil_length_inv, HlF|].
  destruct n as [|p|p]; [reflexivity|lia|reflexivity].
Qed.

Lemma generate_any_integers_witness :
  exists D F,
    result (run cpython (generate (-3) (-2) 7) w_init) = inr (D, F) /\
    square (Z.to_nat (-3)) D /\ square (Z.to_nat (-3)) F /\
    (-3 <= 0 -> D = [] /\ F = [] /\
                draws (run cpython (generate (-3) (-2) 7) w_init) = []).
Proof. apply generate_any_integers. exact cpython_lawful. Defined.

(** X2: with [size >= 1] and [clusters <= 0] the floor division of line 13
    gives ids that never increase along the list and lie in
    [clusters .. 0]. *)
Theorem cluster_of_nonpositive (n clusters : Z) :
  1 <= n -> clusters <= 0 ->
  exists cl,
    cluster_of n clusters = Ret cl /\
    length cl = Z.to_nat n /\
    (forall i ci, cl !! i = Some ci -> clusters <= ci <= 0) /\
    (forall i j ci cj, (i <= j)%nat -> cl !! i = Some ci -> cl !! j = Some cj ->
       cj <= ci).
Proof.
  intros Hn Hc. exists (cluster_ids n clusters).
  split; [apply cluster_of_ret|]. split; [apply cluster_ids_length|].
  assert (Hval : forall i ci, cluster_ids n clusters !! i = Some ci ->
            ci = Z.of_nat i * clusters / n /\ Z.of_nat i < n).
  { intros i ci Hci. pose proof (cluster_ids_lt _ _ _ _ Hci) as Hi.
    rewrite cluster_ids_lookup in Hci by exact Hi.
    injection Hci as <-. split; [reflexivity|lia]. }
  split.
  - intros i ci Hci. destruct (Hval i ci Hci) as [-> Hi].
    pose proof (Z.mul_div_le (Z.of_nat i * clusters) n ltac:(lia)).
    pose proof (Z.mul_succ_div_gt (Z.of_nat i * clusters) n ltac:(lia)).
    nia.
  - intros i j ci cj Hij Hci Hcj.
    destruct (Hval i ci Hci) as [-> _]. destruct (Hval j cj Hcj) as [-> _].
    apply Z.div_le_mono; nia.
Qed.

Lemma cluster_of_nonpositive_witness :
  exists cl,
    cluster_of 4 (-2) = Ret cl /\
    length cl = Z.to_nat 4 /\
    (forall i ci, cl !! i = Some ci -> -2 <= ci <= 0) /\
    (forall i j ci cj, (i <= j)%nat -> cl !! i = Some ci -> cl !! j = Some cj ->
       cj <= ci).
Proof. apply cluster_of_nonpositive; lia. Defined.

Lemma cluster_id_range (n clusters : Z) (i : nat) :
  1 <= n -> 1 <= clusters -> (i < Z.to_nat n)%nat ->
  0 <= Z.of_nat i * clusters / n <= clusters - 1.
Proof.
  intros Hn Hc Hi.
  assert (0 <= Z.of_nat i * clusters / n) by (apply Z.div_pos; nia).
  assert (Z.of_nat i * clusters / n < clusters)
    by (apply Z.div_lt_upper_bound; nia).
  lia.
Qed.

(** X3: for valid input no distance exceeds [10 * clusters + 39] and no
    flow exceeds 220; with the zero lower bounds these are the ranges a
    reader of the instance has to provide for. *)
Theorem generate_bounds (R : Random) (n clusters sd : Z) (w : world R) :
  lawful R -> 1 <= n -> 1 <= clusters ->
  exists D F,
    result (run R (generate n clusters sd) w) = inr (D, F) /\
    (forall i j d, cell D i j = Some d -> 0 <= d <= 10 * clusters + 39) /\
    (forall i j f, cell F i j = Some f -> 0 <= f <= 220).
Proof.
  intros HR Hn Hc.
  destruct (generate_runs R n clusters sd w HR)
    as (D & F & Hrun & [HsqD HD] & [HsqF HF]).
  exists D, F. split; [exact Hrun|]. split.
  - intros i j d Hd. destruct (cell_lt _ _ _ _ _ HsqD Hd) as [Hi Hj].
    destruct (HD i j Hi Hj) as (d' & Hd' & Hdiag & Hoff).
    rewrite Hd in Hd'. injection Hd' as <-.
    destruct (decide (i = j)) as [Heq|Hne]; [rewrite (Hdiag Heq); lia|].
    destruct (Hoff Hne _ _ (cluster_ids_lookup n clusters i Hi)
                   (cluster_ids_lookup n clusters j Hj)) as [Hsame Hdiff].
    pose proof (cluster_id_range n clusters i Hn Hc Hi).
    pose proof (cluster_id_range n clusters j Hn Hc Hj).
    destruct (decide (Z.of_nat i * clusters / n = Z.of_nat j * clusters / n))
      as [He|He]; [specialize (Hsame He)|specialize (Hdiff He)]; lia.
  - intros i j f Hf. destruct (cell_lt _ _ _ _ _ HsqF Hf) as [Hi Hj].
    destruct (HF i j Hi Hj) as (f' & Hf' & Hdiag & Hoff).
    rewrite Hf in Hf'. injection Hf' as <-.
    destruct (decide (i = j)) as [Heq|Hne]; [rewrite (Hdiag Heq); lia|].
    destruct (Hoff Hne _ _ (cluster_ids_lookup n clusters i Hi)
                   (cluster_ids_lookup n clusters j Hj)) as [Hsame Hdiff].
    destruct (decide (Z.of_nat i * clusters / n = Z.of_nat j * clusters / n))
      as [He|He]; [specialize (Hsame He)|specialize (Hdiff He)]; lia.
Qed.

Lemma generate_bounds_witness :
  exists D F,
    result (run cpython (generate 4 2 0) w_init) = inr (D, F) /\
    (forall i j d, cell D i j = Some d -> 0 <= d <= 10 * 2 + 39) /\
    (forall i j f, cell F i j = Some f -> 0 <= f <= 220).
Proof. apply generate_bounds; [exact cpython_lawful | lia | lia]. Defined.

(** X4: the two entries of a pair of locations are drawn separately, and
    they stay close: whatever the inputs, [distance[i][j]] and
    [distance[j][i]] differ by at most 9 inside a cluster and by at most
    19 between two clusters, and [flow[i][j]] and [flow[j][i]] by at most
    120 and at most 215. *)
Theorem generate_near_symmetric (R : Random) (n clusters sd : Z) (w : world R) :
  lawful R ->
  exists cl D F,
    cluster_of n clusters = Ret cl /\
    result (run R (generate n clusters sd) w) = inr (D, F) /\
    forall i j ci cj,
      cl !! i = Some ci -> cl !! j = Some cj ->
      exists d d' f f',
        cell D i j = Some d /\ cell D j i = Some d' /\
        cell F i j = Some f /\ cell F j i = Some f' /\
        (ci = cj -> Z.abs (d - d') <= 9 /\ Z.abs (f - f') <= 120) /\
        (ci <> cj -> Z.abs (d - d') <= 19 /\ Z.abs (f - f') <= 215).
Proof.
  intros HR.
  destruct (generate_runs R n clusters sd w HR)
    as (D & F & Hrun & [_ HD] & [_ HF]).
  exists (cluster_ids n clusters), D, F.
  split; [apply cluster_of_ret|]. split; [exact Hrun|].
  intros i j ci cj Hci Hcj.
  pose proof (cluster_ids_lt _ _ _ _ Hci) as Hi.
  pose proof (cluster_ids_lt _ _ _ _ Hcj) as Hj.
  destruct (HD i j Hi Hj) as (d & Hd & Hd0 & Hdoff).
  destruct (HD j i Hj Hi) as (d' & Hd' & Hd0' & Hdoff').
  destruct (HF i j Hi Hj) as (f & Hf & Hf0 & Hfoff).
  destruct (HF j i Hj Hi) as (f' & Hf' & Hf0' & Hfoff').
  exists d, d', f, f'. repeat (split; [assumption|]).
  destruct (decide (i = j)) as [->|Hne].
  { rewrite Hd in Hd'. rewrite Hf in Hf'.
    injection Hd' as <-. injection Hf' as <-. split; intros; lia. }
  destruct (Hdoff Hne ci cj Hci Hcj) as [Hd1 Hd2].
  destruct (Hdoff' ltac:(congruence) cj ci Hcj Hci) as [Hd1' Hd2'].
  destruct (Hfoff Hne ci cj Hci Hcj) as [Hf1 Hf2].
  destruct (Hfoff' ltac:(congruence) cj ci Hcj Hci) as [Hf1' Hf2'].
  split.
  - intros Heq. specialize (Hd1 Heq). specialize (Hf1 Heq).
    specialize (Hd1' (eq_sym Heq)). specialize (Hf1' (eq_sym Heq)). lia.
  - intros Hdiff. specialize (Hd2 Hdiff). specialize (Hf2 Hdiff).
    specialize (Hd2' ltac:(congruence)). specialize (Hf2' ltac:(congruence)).
    lia.
Qed.

Lemma generate_near_symmetric_witness :
  exists cl D F,
    cluster_of 4 2 = Ret cl /\
    result (run cpython (generate 4 2 0) w_init) = inr (D, F) /\
    forall i j ci cj,
      cl !! i = Some ci -> cl !! j = Some cj ->
      exists d d' f f',
        cell D i j = Some d /\ cell D j i = Some d' /\
        cell F i j = Some f /\ cell F j i = Some f' /\
        (ci = cj -> Z.abs (d - d') <= 9 /\ Z.abs (f - f') <= 120) /\
        (ci <> cj -> Z.abs (d - d') <= 19 /\ Z.abs (f - f') <= 215).
Proof. apply generate_near_symmetric. exact cpython_lawful. Defined.

(** ** The sizes of the clusters *)

Lemma filter_block {A} (P : A -> Prop) `{!forall x, Decision (P x)}
    (l : list A) (a b : nat) :
  (a <= b <= length l)%nat ->
  (forall i x, l !! i = Some x -> (P x <-> (a <= i < b)%nat)) ->
  length (filter P l) = (b - a)%nat.
Proof.
  revert a b. induction l as [|x l IH]; intros a b Hab HP.
  - simpl in Hab. simpl. lia.
  - simpl in Hab.
    assert (Hshift : forall a' b', (forall i, (a <= S i < b)%nat <->
                                              (a' <= i < b')%nat) ->
              forall i y, l !! i = Some y -> (P y <-> (a' <= i < b')%nat)).
    { intros a' b' Hi i y Hy. rewrite <- Hi. apply (HP (S i) y Hy). }
    pose proof (HP 0%nat x eq_refl) as Hx.
    destruct (decide (P x)) as [Hpx|Hnpx].
    + rewrite filter_cons_True by exact Hpx. simpl.
      apply Hx in Hpx.
      rewrite (IH 0%nat (b - 1)%nat); [lia|lia|].
      apply Hshift. intros i. lia.
    + rewrite filter_cons_False by exact Hnpx.
      destruct (decide (a = 0)%nat) as [->|Ha].
      * assert (b = 0)%nat by (destruct b; [reflexivity|exfalso; apply Hnpx, Hx; lia]).
        subst b. rewrite (IH 0%nat 0%nat); [lia|lia|].
        apply Hshift. intros i. lia.
      * rewrite (IH (a - 1)%nat (b - 1)%nat); [lia|lia|].
        apply Hshift. intros i. lia.
Qed.

Lemma block_start_spec (n clusters k : Z) :
  1 <= clusters ->
  (block_start n clusters k - 1) * clusters < k * n
    <= block_start n clusters k * clusters.
Proof.
  intros Hc. unfold block_start.
  pose proof (Z.mul_div_le (k * n + clusters - 1) clusters ltac:(lia)).
  pose proof (Z.mul_succ_div_gt (k * n + clusters - 1) clusters ltac:(lia)).
  nia.
Qed.

Lemma cluster_id_block (n clusters k : Z) (i : nat) :
  1 <= n -> 1 <= clusters ->
  Z.of_nat i * clusters / n = k <->
  block_start n clusters k <= Z.of_nat i < block_start n clusters (k + 1).
Proof.
  intros Hn Hc.
  pose proof (block_start_spec n clusters k Hc) as Hk.
  pose proof (block_start_spec n clusters (k + 1) Hc) as Hk1.
  split.
  - intros <-.
    pose proof (Z.mul_div_le (Z.of_nat i * clusters) n ltac:(lia)).
    pose proof (Z.mul_succ_div_gt (Z.of_nat i * clusters) n ltac:(lia)).
    nia.
  - intros [Hlo Hhi]. symmetry.
    apply (Z.div_unique _ _ _ (Z.of_nat i * clusters - n * k)); [|lia].
    left. nia.
Qed.

(** X5: line 13 cuts the locations into consecutive blocks, cluster [k]
    being the locations from the ceiling of [k * size / clusters] up to
    the next such ceiling.  For valid input every cluster has [size //
    clusters] or one more member, exactly [size // clusters] when [clusters]
    divides [size]: the "roughly equal clusters" of line 14. *)
Theorem cluster_of_balanced (n clusters : Z) :
  1 <= n -> 1 <= clusters ->
  exists cl,
    cluster_of n clusters = Ret cl /\
    (forall i ci, cl !! i = Some ci ->
       block_start n clusters ci <= Z.of_nat i
         < block_start n clusters (ci + 1)) /\
    forall k, 0 <= k < clusters ->
      cluster_size cl k =
        block_start n clusters (k + 1) - block_start n clusters k /\
      n / clusters <= cluster_size cl k <= n / clusters + 1 /\
      (n mod clusters = 0 -> cluster_size cl k = n / clusters).
Proof.
  intros Hn Hc. exists (cluster_ids n clusters).
  split; [apply cluster_of_ret|].
  assert (Hval : forall i ci, cluster_ids n clusters !! i = Some ci ->
            ci = Z.of_nat i * clusters / n /\ Z.of_nat i < n).
  { intros i ci Hci. pose proof (cluster_ids_lt _ _ _ _ Hci) as Hi.
    rewrite cluster_ids_lookup in Hci by exact Hi.
    injection Hci as <-. split; [reflexivity|lia]. }
  split.
  - intros i ci Hci. destruct (Hval i ci Hci) as [Heq _].
    apply cluster_id_block; [assumption..|]. symmetry. exact Heq.
  - intros k Hk.
    pose proof (block_start_spec n clusters k Hc) as Hk0.
    pose proof (block_start_spec n clusters (k + 1) Hc) as Hk1.
    set (a := block_start n clusters k) in *.
    set (b := block_start n clusters (k + 1)) in *.
    assert (Hab : 0 <= a <= b /\ b <= n) by nia.
    assert (Hsize : cluster_size (cluster_ids n clusters) k = b - a).
    { unfold cluster_size.
      rewrite (filter_block _ _ (Z.to_nat a) (Z.to_nat b)).
      - lia.
      - rewrite cluster_ids_length. lia.
      - intros i ci Hci. destruct (Hval i ci Hci) as [-> Hi].
        rewrite (cluster_id_block n clusters k i Hn Hc).
        fold a b. lia. }
    split; [exact Hsize|]. rewrite Hsize.
    pose proof (Z.mul_div_le n clusters ltac:(lia)).
    pose proof (Z.mul_succ_div_gt n clusters ltac:(lia)).
    split; [nia|].
    intros Hmod. apply Z.div_exact in Hmod; [|lia]. nia.
Qed.

Lemma cluster_of_balanced_witness :
  exists cl,
    cluster_of 7 3 = Ret cl /\
    (forall i ci, cl !! i = Some ci ->
       block_start 7 3 ci <= Z.of_nat i < block_start 7 3 (ci + 1)) /\
    forall k, 0 <= k < 3 ->
      cluster_size cl k = block_start 7 3 (k + 1) - block_start 7 3 k /\
      7 / 3 <= cluster_size cl k <= 7 / 3 + 1 /\
      (7 mod 3 = 0 -> cluster_size cl k = 7 / 3).
Proof. apply cluster_of_balanced; lia. Defined.

(** ** The draws of a run *)

Lemma traced_mono {A} (p : prog A) (Q Q' : list draw -> A -> Prop) :
  traced p Q -> (forall t a, Q t a -> Q' t a) -> traced p Q'.
Proof.
  revert Q Q'.
  induction p as [a|e|s k IH|lo hi k IH|k IH|pa k IH|pa s k IH|s k IH];
    simpl; intros Q Q' Hp HQ; eauto.
  all: try (destruct Hp as [Hle Hk]; split; [exact Hle|]; intros v Hv;
            apply (IH v _ _ (Hk v Hv)); intros t a; apply HQ).
  all: try (intros q H0 H1; apply (IH q _ _ (Hp q H0 H1));
            intros t a; apply HQ).
Qed.

Lemma traced_bind {A B} (p : prog A) (f : A -> prog B)
    (Q : list draw -> B -> Prop) :
  traced p (fun t a => traced (f a) (fun t' => Q (t ++ t'))) ->
  traced (p ≫= f) Q.
Proof.
  unfold mbind, prog_bind. revert Q.
  induction p as [a|e|s k IH|lo hi k IH|k IH|pa k IH|pa s k IH|s k IH];
    simpl; intros Q Hp; auto.
  all: try (destruct Hp as [Hle Hk]; split; [exact Hle|]; intros v Hv;
            apply IH; exact (Hk v Hv)).
  all: try (intros q H0 H1; apply IH; exact (Hp q H0 H1)).
Qed.

Lemma traced_randint {B} (lo hi : Z) (f : Z -> prog B)
    (Q : list draw -> B -> Prop) :
  lo <= hi ->
  (forall v, lo <= v <= hi ->
             traced (f v) (fun t => Q (DrawInt lo hi v :: t))) ->
  traced (randint lo hi ≫= f) Q.
Proof. intros Hle Hf. apply traced_bind. simpl. auto. Qed.

Lemma traced_random {B} (f : Q -> prog B) (P : list draw -> B -> Prop) :
  (forall q, traced (f q) (fun t => P (DrawFloat q :: t))) ->
  traced (random ≫= f) P.
Proof. intros Hf. apply traced_bind. simpl. auto. Qed.

Lemma run_traced (R : Random) {A} (p : prog A) (Q : list draw -> A -> Prop)
    (w : world R) :
  lawful R -> traced p Q ->
  exists a, result (run R p w) = inr a /\ Q (draws (run R p w)) a.
Proof.
  intros HR. revert Q w.
  induction p as [a|e|s k IH|lo hi k IH|k IH|pa k IH|pa s k IH|s k IH];
    simpl; intros Q w Hp; eauto.
  - contradiction.
  - destruct Hp as [Hle Hk].
    destruct (Z.ltb_spec hi lo) as [Hlt|_]; [lia|].
    pose proof (rng_randint_range R HR lo hi (w_rng w) Hle) as Hv.
    destruct (rng_randint R lo hi (w_rng w)) as [v g]. simpl in Hv.
    simpl. apply (IH v _ _ (Hk v Hv)).
  - pose proof (rng_random_range R HR (w_rng w)) as [H0 H1].
    destruct (rng_random R (w_rng w)) as [q g]. simpl in H0, H1.
    simpl. apply (IH q _ _ (Hp q H0 H1)).
  - contradiction.
  - destruct pa; apply IH, Hp.
Qed.

(** The rule for [for k in range(n)] with the draws made so far in the
    invariant. *)
Lemma traced_for_seq {S} (body : nat -> S -> prog S)
    (Inv : nat -> list draw -> S -> Prop) (a m : nat) (s : S)
    (t0 : list draw) :
  Inv a t0 s ->
  (forall k t s', (a <= k < a + m)%nat -> Inv k t s' ->
     traced (body k s') (fun t' => Inv (Datatypes.S k) (t ++ t'))) ->
  traced (for_ (seq a m) body s) (fun t => Inv (a + m)%nat (t0 ++ t)).
Proof.
  revert a s t0. induction m as [|m IH]; intros a s t0 H0 Hstep; simpl.
  - rewrite Nat.add_0_r, app_nil_r. exact H0.
  - apply traced_bind.
    eapply traced_mono; [apply (Hstep a t0 s); [lia|exact H0]|].
    intros t s' Hs'. simpl in Hs'.
    replace (a + Datatypes.S m)%nat with (Datatypes.S a + m)%nat by lia.
    eapply traced_mono.
    + apply (IH (Datatypes.S a) s' (t0 ++ t) Hs').
      intros k t1 s'' Hk. apply Hstep. lia.
    + intros t1 s''. simpl. rewrite app_assoc. auto.
Qed.

Lemma cells_before_snoc (n i k : nat) :
  cells_before n i (S k) = cells_before n i k ++ [(i, k)].
Proof.
  unfold cells_before. rewrite seq_S, fmap_app. simpl.
  rewrite app_assoc. reflexivity.
Qed.

Lemma cells_before_row (n i : nat) :
  cells_before n i n = cells_before n (S i) 0.
Proof.
  unfold cells_before. rewrite seq_S, bind_app, bind_singleton. simpl.
  rewrite app_nil_r. reflexivity.
Qed.

Lemma cells_before_all (n : nat) : cells_before n n 0 = cells n.
Proof. unfold cells_before, cells. simpl. apply app_nil_r. Qed.

Lemma elem_of_cells_before (n i k a b : nat) :
  (a, b) ∈ cells_before n i k -> (a < i)%nat \/ (a = i /\ (b < k)%nat).
Proof.
  unfold cells_before. rewrite elem_of_app, list_elem_of_bind.
  intros [(i' & Hab & Hi')|Hab].
  - apply list_elem_of_fmap in Hab as (j & [= -> ->] & _).
    apply elem_of_seq in Hi'. lia.
  - apply list_elem_of_fmap in Hab as (j & [= -> ->] & Hj).
    apply elem_of_seq in Hj. lia.
Qed.

Lemma drawn_cells_frame (G : nat -> nat -> list draw -> Z -> Prop)
    (n i k : nat) (M M' : matrix) (groups : list (list draw)) :
  drawn_cells G (cells_before n i k) M groups ->
  (forall i' j', (i' <> i \/ j' <> k) -> cell M' i' j' = cell M i' j') ->
  drawn_cells G (cells_before n i k) M' groups.
Proof.
  unfold drawn_cells. intros Hall Hframe.
  apply Forall2_same_length_lookup in Hall as [Hlen Hall].
  apply Forall2_same_length_lookup. split; [exact Hlen|].
  intros idx [a b] g Hab Hg.
  destruct (Hall idx (a, b) g Hab Hg) as (v & Hv & HG).
  exists v. split; [|exact HG]. simpl in *.
  rewrite Hframe; [exact Hv|].
  apply list_elem_of_lookup_2, elem_of_cells_before in Hab. lia.
Qed.

(** Two nested [range(n)] loops whose body makes some draws and stores
    one entry per position: the draws of the run are those of the
    positions, in loop order. *)
Lemma traced_fill (n : Z) (body : nat -> nat -> matrix -> prog matrix)
    (G : nat -> nat -> list draw -> Z -> Prop) (M0 : matrix) :
  square (Z.to_nat n) M0 ->
  (forall i j M, (i < Z.to_nat n)%nat -> (j < Z.to_nat n)%nat ->
     square (Z.to_nat n) M ->
     traced (body i j M) (fun g => stored (Z.to_nat n) M i j (G i j g))) ->
  traced (for_ (range n) (fun i M => for_ (range n) (fun j M => body i j M) M) M0)
         (fun t M => square (Z.to_nat n) M /\
                     exists groups, t = concat groups /\
                       drawn_cells G (cells (Z.to_nat n)) M groups).
Proof.
  intros Hsq Hbody. set (N := Z.to_nat n) in *.
  pose (done := fun (i k : nat) (t : list draw) (M : matrix) =>
    square N M /\
    exists groups, t = concat groups /\
      drawn_cells G (cells_before N i k) M groups).
  unfold range. fold N.
  eapply traced_mono.
  - apply (traced_for_seq _ (fun i => done i 0%nat) 0 N M0 []).
    + split; [exact Hsq|]. exists []. split; [reflexivity|]. constructor.
    + intros i t M Hi Hdone.
      eapply traced_mono.
      * apply (traced_for_seq _ (done i) 0 N M t Hdone).
        intros k t1 M1 Hk (Hsq1 & groups & -> & Hcells).
        eapply traced_mono; [apply Hbody; [lia|lia|exact Hsq1]|].
        intros g M2 (Hsq2 & (v & Hv & HG) & Hframe).
        split; [exact Hsq2|]. exists (groups ++ [g]).
        split; [rewrite concat_app; simpl; rewrite app_nil_r; reflexivity|].
        rewrite cells_before_snoc. apply Forall2_app.
        -- apply (drawn_cells_frame G N i k M1 M2 groups Hcells Hframe).
        -- constructor; [|constructor]. exists v. split; assumption.
      * intros t1 M1 Hdone1. simpl in Hdone1. unfold done in *.
        rewrite <- cells_before_row. exact Hdone1.
  - intros t M (Hsq' & groups & Ht & Hcells). simpl in Ht, Hcells.
    split; [exact Hsq'|]. exists groups. split; [exact Ht|].
    rewrite <- cells_before_all. exact Hcells.
Qed.

Lemma stored_mono (n : nat) (M M' : matrix) (i j : nat) (P P' : Z -> Prop) :
  stored n M i j P M' -> (forall v, P v -> P' v) -> stored n M i j P' M'.
Proof.
  intros (Hsq & (v & Hv & HP) & Hframe) Himp.
  split; [exact Hsq|]. split; [|exact Hframe]. exists v. auto.
Qed.

Lemma traced_setitem2 (n : nat) (M : matrix) (i j : nat) (v : Z)
    (Q : list draw -> matrix -> Prop) :
  square n M -> (i < n)%nat -> (j < n)%nat ->
  (forall M', stored n M i j (fun x => x = v) M' -> Q [] M') ->
  traced (setitem2 M i j v) Q.
Proof.
  intros Hsq Hi Hj HQ.
  pose proof (setitem2_stored n M i j v (fun x => x = v) Hsq Hi Hj eq_refl)
    as Hs.
  unfold setitem2, getitem in *.
  destruct (M !! i) as [row|]; [|contradiction].
  rewrite bind_ret_l in *.
  destruct (j <? length row)%nat; [|contradiction].
  simpl in *. apply HQ, Hs.
Qed.

Lemma distance_cell_traced (cl : list Z) (n : nat) (D : matrix) (i j : nat) :
  length cl = n -> square n D -> (i < n)%nat -> (j < n)%nat ->
  traced (distance_cell cl i j D)
         (fun g => stored n D i j (distance_drawn cl i j g)).
Proof.
  intros Hcl Hsq Hi Hj. unfold distance_cell.
  destruct (Nat.eqb_spec i j) as [Heq|Hne].
  - apply (traced_setitem2 n); try assumption.
    intros M' HM'. apply (stored_mono _ _ _ _ _ _ _ HM').
    intros v ->. left. auto.
  - destruct (lookup_lt_is_Some_2 cl i) as [ci Hci]; [lia|].
    destruct (lookup_lt_is_Some_2 cl j) as [cj Hcj]; [lia|].
    run_getitems.
    destruct (Z.eqb_spec ci cj) as [Hsame|Hdiff].
    + apply traced_randint; [lia|]. intros r Hr.
      apply (traced_setitem2 n); try assumption.
      intros M' HM'. apply (stored_mono _ _ _ _ _ _ _ HM').
      intros v ->. right. split; [exact Hne|].
      exists ci, cj, r. split; [exact Hci|]. split; [exact Hcj|].
      left. auto.
    + apply traced_randint; [lia|]. intros r Hr.
      apply (traced_setitem2 n); try assumption.
      intros M' HM'. apply (stored_mono _ _ _ _ _ _ _ HM').
      intros v ->. right. split; [exact Hne|].
      exists ci, cj, r. split; [exact Hci|]. split; [exact Hcj|].
      right. auto.
Qed.

Lemma flow_cell_traced (cl : list Z) (n : nat) (F : matrix) (i j : nat) :
  length cl = n -> square n F -> (i < n)%nat -> (j < n)%nat ->
  traced (flow_cell cl i j F)
         (fun g => stored n F i j (flow_drawn cl i j g)).
Proof.
  intros Hcl Hsq Hi Hj. unfold flow_cell.
  destruct (Nat.eqb_spec i j) as [Heq|Hne].
  - apply (traced_setitem2 n); try assumption.
    intros M' HM'. apply (stored_mono _ _ _ _ _ _ _ HM').
    intros v ->. left. auto.
  - destruct (lookup_lt_is_Some_2 cl i) as [ci Hci]; [lia|].
    destruct (lookup_lt_is_Some_2 cl j) as [cj Hcj]; [lia|].
    run_getitems.
    destruct (Z.eqb_spec ci cj) as [Hsame|Hdiff].
    + apply traced_randint; [lia|]. intros r Hr.
      apply (traced_setitem2 n); try assumption.
      intros M' HM'. apply (stored_mono _ _ _ _ _ _ _ HM').
      intros v ->. right. split; [exact Hne|].
      exists ci, cj. split; [exact Hci|]. split; [exact Hcj|].
      left. auto.
    + apply traced_random. intros p.
      destruct (Qltb p float_0_05) eqn:Hp.
      * apply traced_randint; [lia|]. intros r Hr.
        apply (traced_setitem2 n); try assumption.
        intros M' HM'. apply (stored_mono _ _ _ _ _ _ _ HM').
        intros v ->. right. split; [exact Hne|].
        exists ci, cj. split; [exact Hci|]. split; [exact Hcj|].
        right. split; [exact Hdiff|]. exists p. left. auto.
      * apply traced_randint; [lia|]. intros r Hr.
        apply (traced_setitem2 n); try assumption.
        intros M' HM'. apply (stored_mono _ _ _ _ _ _ _ HM').
        intros v ->. right. split; [exact Hne|].
        exists ci, cj. split; [exact Hci|]. split; [exact Hcj|].
        right. split; [exact Hdiff|]. exists p. right. auto.
Qed.

Lemma generate_traced (n clusters sd : Z) :
  traced (generate n clusters sd)
    (fun t DF =>
       exists gd gf,
         t = concat gd ++ concat gf /\
         drawn_cells (distance_drawn (cluster_ids n clusters))
                     (cells (Z.to_nat n)) DF.1 gd /\
         drawn_cells (flow_drawn (cluster_ids n clusters))
                     (cells (Z.to_nat n)) DF.2 gf).
Proof.
  unfold generate. rewrite seed_bind. simpl traced.
  rewrite cluster_of_ret, bind_ret_l. fold (cluster_ids n clusters).
  apply traced_bind. eapply traced_mono.
  { apply (traced_fill n _ (distance_drawn (cluster_ids n clusters))).
    - apply zeros_square.
    - intros i j M Hi Hj Hsq.
      apply distance_cell_traced; auto using cluster_ids_length. }
  intros td D (_ & gd & -> & Hgd). apply traced_bind. eapply traced_mono.
  { apply (traced_fill n _ (flow_drawn (cluster_ids n clusters))).
    - apply zeros_square.
    - intros i j M Hi Hj Hsq.
      apply flow_cell_traced; auto using cluster_ids_length. }
  intros tf F (_ & gf & -> & Hgf). simpl.
  exists gd, gf. rewrite app_nil_r. auto.
Qed.

(** X6: the draws of a call of [generate] are first those of the distance
    matrix and then those of the flow matrix, each in row-major order of
    the entries; the diagonal costs no draw, and every other entry is
    what its own draws say: an offset of its one draw in the distance
    matrix, its last draw in the flow matrix. *)
Theorem generate_draw_order (R : Random) (n clusters sd : Z) (w : world R) :
  lawful R ->
  exists cl D F gd gf,
    cluster_of n clusters = Ret cl /\
    result (run R (generate n clusters sd) w) = inr (D, F) /\
    draws (run R (generate n clusters sd) w) = concat gd ++ concat gf /\
    drawn_cells (distance_drawn cl) (cells (Z.to_nat n)) D gd /\
    drawn_cells (flow_drawn cl) (cells (Z.to_nat n)) F gf.
Proof.
  intros HR.
  destruct (run_traced R _ _ w HR (generate_traced n clusters sd))
    as ([D F] & Hrun & gd & gf & Ht & Hgd & Hgf).
  exists (cluster_ids n clusters), D, F, gd, gf.
  split; [apply cluster_of_ret|]. auto.
Qed.

Lemma generate_draw_order_witness :
  exists cl D F gd gf,
    cluster_of 4 2 = Ret cl /\
    result (run cpython (generate 4 2 0) w_init) = inr (D, F) /\
    draws (run cpython (generate 4 2 0) w_init) = concat gd ++ concat gf /\
    drawn_cells (distance_drawn cl) (cells (Z.to_nat 4)) D gd /\
    drawn_cells (flow_drawn cl) (cells (Z.to_nat 4)) F gf.
Proof. apply generate_draw_order. exact cpython_lawful. Defined.

Lemma length_concat_bounds {X} (P : X -> list draw -> Prop) (lo hi : X -> nat)
    (xs : list X) (groups : list (list draw)) :
  Forall2 P xs groups ->
  (forall x g, P x g -> (lo x <= length g <= hi x)%nat) ->
  (sum_list_with lo xs <= length (concat groups) <= sum_list_with hi xs)%nat.
Proof.
  intros Hall Hlen. induction Hall as [|x g xs groups Hx _ IH]; simpl; [lia|].
  rewrite length_app. specialize (Hlen x g Hx). lia.
Qed.

Lemma off_diagonal_row (i a m : nat) :
  sum_list_with (fun ij : nat * nat => if decide (ij.1 = ij.2) then 0 else 1)%nat
                ((fun j => (i, j)) <$> seq a m)
  = (m - (if decide (a <= i < a + m)%nat then 1 else 0))%nat.
Proof.
  revert a. induction m as [|m IH]; intros a; simpl.
  - destruct (decide (a <= i < a + 0)%nat); lia.
  - rewrite IH.
    destruct (decide (i = a)), (decide (S a <= i < S a + m)%nat),
      (decide (a <= i < a + S m)%nat); lia.
Qed.

Lemma off_diagonal_rows (n : nat) (rows : list nat) :
  Forall (fun i => (i < n)%nat) rows ->
  sum_list_with (fun ij : nat * nat => if decide (ij.1 = ij.2) then 0 else 1)%nat
                (i ← rows; (fun j => (i, j)) <$> seq 0 n)
  = (length rows * (n - 1))%nat.
Proof.
  induction 1 as [|i rows Hi _ IH]; [reflexivity|].
  rewrite bind_cons, sum_list_with_app, IH, off_diagonal_row.
  destruct (decide (0 <= i < 0 + n)%nat); simpl; lia.
Qed.

Lemma off_diagonal_cells (n : nat) :
  sum_list_with (fun ij : nat * nat => if decide (ij.1 = ij.2) then 0 else 1)%nat
                (cells n)
  = (n * (n - 1))%nat.
Proof.
  unfold cells. rewrite off_diagonal_rows, length_seq; [reflexivity|].
  apply Forall_forall. intros i Hi. apply elem_of_seq in Hi. lia.
Qed.

Lemma sum_list_with_double {X} (f : X -> nat) (xs : list X) :
  sum_list_with (fun x => 2 * f x)%nat xs = (2 * sum_list_with f xs)%nat.
Proof.
  induction xs as [|x xs IH]; [reflexivity|].
  cbn [sum_list_with]. rewrite IH. lia.
Qed.

(** X7: with [n = max(size, 0)], the draws of a call of [generate] are
    those of the entries of the distance matrix, in loop order, followed
    by those of the entries of the flow matrix, in loop order; the first
    part is exactly [n * (n - 1)] draws long, one per off-diagonal
    entry, and the second between [n * (n - 1)] and [2 * n * (n - 1)]. *)
Theorem generate_draw_count (R : Random) (n clusters sd : Z) (w : world R) :
  lawful R ->
  exists cl D F gd gf,
    cluster_of n clusters = Ret cl /\
    result (run R (generate n clusters sd) w) = inr (D, F) /\
    draws (run R (generate n clusters sd) w) = concat gd ++ concat gf /\
    drawn_cells (distance_drawn cl) (cells (Z.to_nat n)) D gd /\
    drawn_cells (flow_drawn cl) (cells (Z.to_nat n)) F gf /\
    length (concat gd) = (Z.to_nat n * (Z.to_nat n - 1))%nat /\
    (Z.to_nat n * (Z.to_nat n - 1) <= length (concat gf)
       <= 2 * (Z.to_nat n * (Z.to_nat n - 1)))%nat.
Proof.
  intros HR.
  destruct (run_traced R _ _ w HR (generate_traced n clusters sd))
    as ([D F] & Hrun & gd & gf & Ht & Hgd & Hgf).
  exists (cluster_ids n clusters), D, F, gd, gf.
  split; [apply cluster_of_ret|]. split; [exact Hrun|].
  split; [exact Ht|]. split; [exact Hgd|]. split; [exact Hgf|].
  set (off := fun ij : nat * nat =>
                if decide (ij.1 = ij.2) then 0%nat else 1%nat).
  pose proof (length_concat_bounds _ off off _ _ Hgd) as Hd.
  pose proof (length_concat_bounds _ off (fun ij => 2 * off ij)%nat _ _ Hgf)
    as Hf.
  rewrite sum_list_with_double in Hf.
  unfold off in Hd, Hf. rewrite off_diagonal_cells in Hd, Hf.
  split.
  - enough (Z.to_nat n * (Z.to_nat n - 1) <= length (concat gd)
            <= Z.to_nat n * (Z.to_nat n - 1))%nat by lia.
    apply Hd. intros [i j] g (v & _ & Hg). simpl in *.
    destruct Hg as [(-> & -> & _)|(Hne & ci & cj & r & _ & _ & Hg)].
    + rewrite decide_True by reflexivity. simpl. lia.
    + rewrite decide_False by exact Hne.
      destruct Hg as [(_ & _ & -> & _)|(_ & _ & -> & _)]; simpl; lia.
  - apply Hf. intros [i j] g (v & _ & Hg). simpl in *.
    destruct Hg as [(-> & -> & _)|(Hne & ci & cj & _ & _ & Hg)].
    + rewrite decide_True by reflexivity. simpl. lia.
    + rewrite decide_False by exact Hne.
      destruct Hg as [(_ & _ & ->)|(_ & p & [(_ & _ & ->)|(_ & _ & ->)])];
        simpl; lia.
Qed.

Lemma generate_draw_count_witness :
  exists cl D F gd gf,
    cluster_of 4 2 = Ret cl /\
    result (run cpython (generate 4 2 0) w_init) = inr (D, F) /\
    draws (run cpython (generate 4 2 0) w_init) = concat gd ++ concat gf /\
    drawn_cells (distance_drawn cl) (cells (Z.to_nat 4)) D gd /\
    drawn_cells (flow_drawn cl) (cells (Z.to_nat 4)) F gf /\
    length (concat gd) = (Z.to_nat 4 * (Z.to_nat 4 - 1))%nat /\
    (Z.to_nat 4 * (Z.to_nat 4 - 1) <= length (concat gf)
       <= 2 * (Z.to_nat 4 * (Z.to_nat 4 - 1)))%nat.
Proof. apply generate_draw_count. exact cpython_lawful. Defined.

(** ** Further properties of [main] *)

Lemma main_outcome (R : Random) (n clusters sd : Z) (out file : string)
    (w : world R) :
  lawful R ->
  fs_open (w_fs w) out = Some (Regular file) ->
  exists D F,
    result (run R (generate n clusters sd) w) = inr (D, F) /\
    square (Z.to_nat n) D /\ square (Z.to_nat n) F /\
    run R (main n clusters sd out) w =
    Outcome (inr tt)
      (World (w_rng (final (run R (generate n clusters sd) w)))
             (Filesystem (<[file := instance_text n D F]> (fs_files (w_fs w)))
                         (fs_open (w_fs w)))
             ((w_stdout w ++
               "Wrote " ++ out ++ " n= " ++ str n ++ " clusters= " ++
               str clusters ++ " seed= " ++ str sd ++ newline)%string))
      (draws (run R (generate n clusters sd) w)).
Proof.
  intros HR Hopen.
  destruct (generate_runs R n clusters sd w HR)
    as (D & F & Hrun & [HsqD _] & [HsqF _]).
  exists D, F. split; [exact Hrun|]. split; [exact HsqD|].
  split; [exact HsqF|].
  apply run_main_outcome; [exact Hrun|apply HsqD|apply HsqF|exact Hopen].
Qed.

(** X8: whatever integers it is given, when the output path opens a
    regular file [main] raises nothing and prints exactly one line,
    [Wrote <out> n= <size> clusters= <clusters> seed= <seed>]; it touches
    the generator only through its call of [generate]: same draws, same
    generator state afterwards. *)
Theorem main_confirmation (R : Random) (n clusters sd : Z)
    (out file : string) (w : world R) :
  lawful R ->
  fs_open (w_fs w) out = Some (Regular file) ->
  result (run R (main n clusters sd out) w) = inr tt /\
  w_stdout (final (run R (main n clusters sd out) w)) =
    (w_stdout w ++
     "Wrote " ++ out ++ " n= " ++ str n ++ " clusters= " ++ str clusters ++
     " seed= " ++ str sd ++ newline)%string /\
  draws (run R (main n clusters sd out) w) =
    draws (run R (generate n clusters sd) w) /\
  w_rng (final (run R (main n clusters sd out) w)) =
    w_rng (final (run R (generate n clusters sd) w)).
Proof.
  intros HR Hopen.
  destruct (main_outcome R n clusters sd out file w HR Hopen)
    as (D & F & _ & _ & _ & ->).
  auto.
Qed.

Lemma main_confirmation_witness :
  result (run cpython (main 4 2 0 "instance.txt") w_init) = inr tt /\
  w_stdout (final (run cpython (main 4 2 0 "instance.txt") w_init)) =
    (w_stdout w_init ++
     "Wrote " ++ "instance.txt" ++ " n= " ++ str 4 ++ " clusters= " ++ str 2 ++
     " seed= " ++ str 0 ++ newline)%string /\
  draws (run cpython (main 4 2 0 "instance.txt") w_init) =
    draws (run cpython (generate 4 2 0) w_init) /\
  w_rng (final (run cpython (main 4 2 0 "instance.txt") w_init)) =
    w_rng (final (run cpython (generate 4 2 0) w_init)).
Proof.
  apply (main_confirmation cpython 4 2 0 "instance.txt" "instance.txt");
    [exact cpython_lawful | reflexivity].
Defined.

(** X9: with [size <= 0], and an output path that opens a regular file,
    the script still runs to its end: the file it leaves holds the size
    line and nothing else. *)
Theorem main_nonpositive_size (R : Random) (n clusters sd : Z)
    (out file : string) (w : world R) :
  lawful R -> n <= 0 ->
  fs_open (w_fs w) out = Some (Regular file) ->
  result (run R (main n clusters sd out) w) = inr tt /\
  fs_files (w_fs (final (run R (main n clusters sd out) w))) !! file =
    Some (str n ++ newline)%string.
Proof.
  intros HR Hn Hopen.
  destruct (main_outcome R n clusters sd out file w HR Hopen)
    as (D & F & _ & [HlD _] & [HlF _] & ->).
  replace (Z.to_nat n) with 0%nat in HlD, HlF by lia.
  apply nil_length_inv in HlD, HlF. subst D F.
  split; [reflexivity|]. cbn [final w_fs fs_files].
  rewrite lookup_insert_eq. unfold instance_text.
  cbn [fmap list_fmap app text_of foldr].
  rewrite string_app_nil_r. reflexivity.
Qed.

Lemma main_nonpositive_size_witness :
  result (run cpython (main 0 5 42 "instance.txt") w_init) = inr tt /\
  fs_files (w_fs (final (run cpython (main 0 5 42 "instance.txt") w_init)))
    !! "instance.txt" = Some (str 0 ++ newline)%string.
Proof.
  apply main_nonpositive_size; [exact cpython_lawful | lia | reflexivity].
Defined.

(** X10: from any two states of the process in which the output path
    opens a regular file, [main] leaves the same content in that file: it
    depends on [(size, clusters, seed)] alone, not on what the file held
    before nor on the state of the generator; and running the script a
    second time leaves the file system as the first run left it. *)
Theorem main_overwrites (R : Random) (n clusters sd : Z)
    (out file1 file2 : string) (w1 w2 : world R) :
  lawful R ->
  fs_open (w_fs w1) out = Some (Regular file1) ->
  fs_open (w_fs w2) out = Some (Regular file2) ->
  fs_files (w_fs (final (run R (main n clusters sd out) w1))) !! file1 =
    fs_files (w_fs (final (run R (main n clusters sd out) w2))) !! file2 /\
  w_fs (final (run R (main n clusters sd out)
                   (final (run R (main n clusters sd out) w1)))) =
    w_fs (final (run R (main n clusters sd out) w1)).
Proof.
  intros HR Hopen1 Hopen2.
  destruct (main_outcome R n clusters sd out file1 w1 HR Hopen1)
    as (D & F & Hrun1 & _ & _ & Hmain1).
  destruct (main_outcome R n clusters sd out file2 w2 HR Hopen2)
    as (D2 & F2 & Hrun2 & _ & _ & Hmain2).
  assert (Hopen3 : fs_open (w_fs (final (run R (main n clusters sd out) w1)))
                           out = Some (Regular file1))
    by (rewrite Hmain1; exact Hopen1).
  destruct (main_outcome R n clusters sd out file1
              (final (run R (main n clusters sd out) w1)) HR Hopen3)
    as (D3 & F3 & Hrun3 & _ & _ & Hmain3).
  destruct (run_generate_any_world R n clusters sd w1 w2) as [Heq2 _].
  destruct (run_generate_any_world R n clusters sd w1
              (final (run R (main n clusters sd out) w1))) as [Heq3 _].
  rewrite Hrun1, Hrun2 in Heq2. rewrite Hrun1, Hrun3 in Heq3.
  injection Heq2 as <- <-. injection Heq3 as <- <-.
  rewrite Hmain3. rewrite Hmain1, Hmain2. cbn [final w_fs fs_files fs_open].
  split; [rewrite !lookup_insert_eq; reflexivity|].
  rewrite insert_insert_eq. reflexivity.
Qed.

Lemma main_overwrites_witness :
  fs_files (w_fs (final (run cpython (main 4 2 0 "instance.txt") w_init)))
    !! "instance.txt" =
    fs_files (w_fs (final (run cpython (main 4 2 0 "instance.txt")
                        (World (R := cpython) (Mt19937.seed 7)
                           (Filesystem {["instance.txt" := "old"%string]}
                                       (fs_open empty_directory))
                           EmptyString))))
    !! "instance.txt" /\
  w_fs (final (run cpython (main 4 2 0 "instance.txt")
                   (final (run cpython (main 4 2 0 "instance.txt") w_init)))) =
    w_fs (final (run cpython (main 4 2 0 "instance.txt") w_init)).
Proof.
  apply main_overwrites; [exact cpython_lawful | reflexivity | reflexivity].
Defined.

(** X11: when the file system refuses the output path (a missing
    directory, no permission), [main] raises [OSError] at line 58, after
    [generate] has run: no file is created or changed and nothing is
    printed, while the generator has been reseeded and advanced as by the
    call of [generate]. *)
Theorem main_refused (R : Random) (n clusters sd : Z) (out : string)
    (w : world R) :
  lawful R ->
  fs_open (w_fs w) out = None ->
  result (run R (main n clusters sd out) w) = inl OSError /\
  w_fs (final (run R (main n clusters sd out) w)) = w_fs w /\
  w_stdout (final (run R (main n clusters sd out) w)) = w_stdout w /\
  draws (run R (main n clusters sd out) w) =
    draws (run R (generate n clusters sd) w) /\
  w_rng (final (run R (main n clusters sd out) w)) =
    w_rng (final (run R (generate n clusters sd) w)).
Proof.
  intros HR Hopen.
  destruct (generate_runs R n clusters sd w HR) as (D & F & Hrun & _).
  destruct (run_silent R (generate n clusters sd) w
              (generate_silent n clusters sd)) as [Hfs Hstdout].
  rewrite (run_main_refused R n clusters sd out w D F Hrun Hopen).
  cbn [result final draws]. auto.
Qed.

Lemma main_refused_witness :
  result (run cpython (main 50 5 42 "instances/meta_massive_50.txt") w_init)
    = inl OSError /\
  w_fs (final (run cpython (main 50 5 42 "instances/meta_massive_50.txt")
                   w_init)) = w_fs w_init /\
  w_stdout (final (run cpython (main 50 5 42 "instances/meta_massive_50.txt")
                       w_init)) = w_stdout w_init /\
  draws (run cpython (main 50 5 42 "instances/meta_massive_50.txt") w_init) =
    draws (run cpython (generate 50 5 42) w_init) /\
  w_rng (final (run cpython (main 50 5 42 "instances/meta_massive_50.txt")
                    w_init)) =
    w_rng (final (run cpython (generate 50 5 42) w_init)).
Proof. apply main_refused; [exact cpython_lawful | reflexivity]. Defined.
